(** * A shallow embedding of the allocator of [2021MT60949mmu.h]

    The allocator keeps every block header inside the memory it manages and
    threads the headers of the arena blocks on a singly linked list
    ([free_list]).  The embedding keeps that shape: memory is a finite map
    from addresses to header objects, the list is followed through the
    [next] fields, and the three globals of the C file form the allocator
    state.  The operating system is an oracle: a call of [mmap] receives the
    address the system hands out (or the failure), a call of [munmap]
    receives its verdict, and every call is recorded as an event.

    Pointers are integers and pointer arithmetic is exact; [size_t]
    arithmetic wraps at 2^64.  The two [int] flags of a header are
    booleans.  A header is one object: the embedding does not follow what
    happens when two headers overlap in memory or when payload bytes are
    written over a header. *)

From Stdlib Require Import ZArith Lia List Bool.
From Stdlib.Strings Require Import Byte.
From stdpp Require Import base option gmap.
Import ListNotations.

Local Open Scope Z_scope.

(** ** Constants *)

Definition ALIGNMENT : Z := 16.
Definition MAGIC : Z := 1234567.
Definition MMAP_THRESHOLD : Z := 8 * 1024.
Definition HEAP_EXPANSION_SIZE : Z := 16 * 1024.

(** [sizeof(block_header_t)] under the LP64 data model the file is written
    for ([size_t] and pointers of 8 bytes, [int] of 4): 8 + 4 + 4 + 8 + 4
    bytes, padded to the 8-byte alignment of the struct. *)
Definition HEADER_SIZE : Z := 32.

(** [size_t] arithmetic is arithmetic modulo 2^64. *)
Definition wrap (z : Z) : Z := z mod 2 ^ 64.

(** ** Block headers and the allocator state *)

Record block_header : Type := mk_header {
  size : Z;
  is_free : bool;
  is_mmap : bool;
  next : Z;
  magic : Z
}.

Definition with_size (v : Z) (h : block_header) : block_header :=
  mk_header v (is_free h) (is_mmap h) (next h) (magic h).
Definition with_is_free (v : bool) (h : block_header) : block_header :=
  mk_header (size h) v (is_mmap h) (next h) (magic h).
Definition with_next (v : Z) (h : block_header) : block_header :=
  mk_header (size h) (is_free h) (is_mmap h) v (magic h).
Definition with_magic (v : Z) (h : block_header) : block_header :=
  mk_header (size h) (is_free h) (is_mmap h) (next h) v.

(** The null pointer is address 0.  [mem] holds the header objects that are
    in memory; [payload] holds the bytes handed to callers (only
    [my_calloc] writes them). *)
Record state : Type := mk_state {
  free_list : Z;
  heap_start : Z;
  heap_end : Z;
  mem : gmap Z block_header;
  payload : Z -> byte
}.

Definition initial_state : state :=
  mk_state 0 0 0 ∅ (fun _ => x00).

Definition with_free_list (v : Z) (st : state) : state :=
  mk_state v (heap_start st) (heap_end st) (mem st) (payload st).
Definition with_heap_start (v : Z) (st : state) : state :=
  mk_state (free_list st) v (heap_end st) (mem st) (payload st).
Definition with_heap_end (v : Z) (st : state) : state :=
  mk_state (free_list st) (heap_start st) v (mem st) (payload st).
Definition with_mem (v : gmap Z block_header) (st : state) : state :=
  mk_state (free_list st) (heap_start st) (heap_end st) v (payload st).
Definition with_payload (v : Z -> byte) (st : state) : state :=
  mk_state (free_list st) (heap_start st) (heap_end st) (mem st) v.

(** What the allocator does to the outside world. *)
Inductive event : Type :=
| EMmap (len : Z)                 (* mmap(NULL, len, ...) *)
| EMunmap (addr len : Z)          (* munmap(addr, len) *)
| EInvalidFree (block : Z)        (* "Invalid free detected at block %p!" *)
| EMappingError.                  (* perror("munmap failed") *)

(** ** The monad of the embedding

    [Fault] is a read or a field update at an address that holds no header
    object (unmapped memory, or bytes the C code would reinterpret);
    [Diverge] is a list walk that never ends. *)
Inductive outcome (A : Type) : Type :=
| Done (a : A)
| Fault
| Diverge.
Arguments Done {A} a.
Arguments Fault {A}.
Arguments Diverge {A}.

Definition M (A : Type) : Type := state -> outcome (A * state).

Definition ret {A} (a : A) : M A := fun st => Done (a, st).
Definition bind {A B} (c : M A) (k : A -> M B) : M B :=
  fun st => match c st with
            | Done (a, st') => k a st'
            | Fault => Fault
            | Diverge => Diverge
            end.

Notation "'let*' x ':=' c 'in' k" := (bind c (fun x => k))
  (at level 10, x name, c at level 100, k at level 200).
Notation "c ;;; k" := (bind c (fun _ => k))
  (at level 200, right associativity).

Definition get {A} (f : state -> A) : M A := fun st => Done (f st, st).
Definition modify (f : state -> state) : M unit := fun st => Done (tt, f st).
Definition lift {A} (f : state -> outcome A) : M A :=
  fun st => match f st with
            | Done a => Done (a, st)
            | Fault => Fault
            | Diverge => Diverge
            end.

(** Reading a header, writing a whole header, updating one field. *)
Definition load (a : Z) : M block_header :=
  fun st => match mem st !! a with
            | Some h => Done (h, st)
            | None => Fault
            end.
Definition store (a : Z) (h : block_header) : M unit :=
  modify (fun st => with_mem (<[a := h]> (mem st)) st).
Definition update (a : Z) (f : block_header -> block_header) : M unit :=
  let* h := load a in store a (f h).

(** ** Alignment functions *)

Definition align_size (sz : Z) : Z :=
  Z.land (wrap (sz + ALIGNMENT - 1)) (Z.lnot (ALIGNMENT - 1)).

Section Allocator.

(** [getpagesize()] *)
Variable page_size : Z.

Definition align_to_page (sz : Z) : Z :=
  wrap (wrap (sz + page_size - 1) / page_size * page_size).

(** ** Free list management *)

(** A walk over [n] headers needs at most [n + 1] tests of the cursor. *)
Definition walk_fuel (m : gmap Z block_header) : nat := S (base.size m).

(** [while (current->next != NULL) current = current->next;] *)
Fixpoint last_block (fuel : nat) (m : gmap Z block_header) (current : Z)
  : outcome Z :=
  match fuel with
  | O => Diverge
  | S k =>
      match m !! current with
      | None => Fault
      | Some h =>
          if next h =? 0 then Done current else last_block k m (next h)
      end
  end.

Definition append_block_to_free_list (block : Z) : M unit :=
  update block (with_next 0) ;;;
  let* fl := get free_list in
  if fl =? 0 then modify (with_free_list block)
  else
    let* current := lift (fun st => last_block (walk_fuel (mem st)) (mem st) fl) in
    update current (with_next block).

(** [while (current != NULL && current->next != block) ...] *)
Fixpoint find_prev_loop (fuel : nat) (m : gmap Z block_header)
  (block current : Z) : outcome Z :=
  match fuel with
  | O => Diverge
  | S k =>
      if current =? 0 then Done 0
      else match m !! current with
           | None => Fault
           | Some h =>
               if next h =? block then Done current
               else find_prev_loop k m block (next h)
           end
  end.

Definition find_prev_block (block : Z) : M Z :=
  lift (fun st =>
          find_prev_loop (walk_fuel (mem st)) (mem st) block (free_list st)).

Fixpoint find_free_loop (fuel : nat) (m : gmap Z block_header)
  (sz current : Z) : outcome Z :=
  match fuel with
  | O => Diverge
  | S k =>
      if current =? 0 then Done 0
      else match m !! current with
           | None => Fault
           | Some h =>
               if is_free h && (sz <=? size h) then Done current
               else find_free_loop k m sz (next h)
           end
  end.

Definition find_free_block (sz : Z) : M Z :=
  lift (fun st =>
          find_free_loop (walk_fuel (mem st)) (mem st) sz (free_list st)).

(** ** Block management *)

Definition split_block (block sz : Z) : M Z :=
  let min_block_size := HEADER_SIZE + ALIGNMENT in
  let* h := load block in
  (if wrap (sz + min_block_size) <=? size h then
     let new_block := block + HEADER_SIZE + sz in
     store new_block
       (mk_header (wrap (size h - sz - HEADER_SIZE)) true false (next h) MAGIC) ;;;
     update block (with_size sz) ;;;
     update block (with_next new_block)
   else ret tt) ;;;
  ret block.

Definition merge_with_next_block (block : Z) : M unit :=
  let* h := load block in
  if next h =? 0 then ret tt
  else
    let* n := load (next h) in
    if is_free n then
      update block (with_size (wrap (size h + wrap (HEADER_SIZE + size n)))) ;;;
      let* h' := load block in
      let* n' := load (next h') in
      update block (with_next (next n'))
    else ret tt.

(** The C function updates [*block]; the embedding returns the new value. *)
Definition merge_with_prev_block (block : Z) : M Z :=
  let* prev := find_prev_block block in
  if prev =? 0 then ret block
  else
    let* p := load prev in
    if is_free p then
      let* h := load block in
      update prev (with_size (wrap (size p + wrap (HEADER_SIZE + size h)))) ;;;
      let* h' := load block in
      update prev (with_next (next h')) ;;;
      ret prev
    else ret block.

Definition merge_adjacent_free_blocks (block : Z) : M Z :=
  merge_with_next_block block ;;;
  merge_with_prev_block block.

(** ** Memory allocation *)

(** Lines 146-177 of [request_new_heap_block]: carve a block of
    [total_size] bytes at [heap_start], turn what is left of the arena into
    a free block, and link both. *)
Definition carve_block (total_size : Z) : M Z :=
  let* block := get heap_start in
  modify (with_heap_start (block + total_size)) ;;;
  store block
    (mk_header (wrap (total_size - HEADER_SIZE)) false false 0 MAGIC) ;;;
  let* hs := get heap_start in
  let* he := get heap_end in
  (if HEADER_SIZE <? wrap (he - hs) then
     let remaining_block := hs in
     store remaining_block
       (mk_header (wrap (he - hs - HEADER_SIZE)) true false 0 MAGIC) ;;;
     modify (with_heap_start he) ;;;
     append_block_to_free_list remaining_block
   else ret tt) ;;;
  append_block_to_free_list block ;;;
  ret block.

(** [os] is what [mmap] answers if it is called: [None] is [MAP_FAILED]. *)
Definition request_new_heap_block (os : option Z) (sz : Z)
  : M (Z * list event) :=
  let total_size := align_to_page (wrap (sz + HEADER_SIZE)) in
  let* hs := get heap_start in
  let* he := get heap_end in
  if (hs =? 0) || (wrap (he - hs) <? total_size) then
    match os with
    | None => ret (0, [EMmap HEAP_EXPANSION_SIZE])
    | Some new_heap =>
        modify (with_heap_start new_heap) ;;;
        modify (with_heap_end (new_heap + HEAP_EXPANSION_SIZE)) ;;;
        let* block := carve_block total_size in
        ret (block, [EMmap HEAP_EXPANSION_SIZE])
    end
  else
    let* block := carve_block total_size in
    ret (block, []).

Definition request_new_mmap_block (os : option Z) (sz : Z)
  : M (Z * list event) :=
  let total_size := align_to_page (wrap (sz + HEADER_SIZE)) in
  match os with
  | None => ret (0, [EMmap total_size])
  | Some block =>
      store block
        (mk_header (wrap (total_size - HEADER_SIZE)) false true 0 MAGIC) ;;;
      ret (block, [EMmap total_size])
  end.

Definition my_malloc (os : option Z) (sz : Z) : M (Z * list event) :=
  if sz =? 0 then ret (0, [])
  else
    let aligned_size := align_size sz in
    if MMAP_THRESHOLD <=? aligned_size then
      let* r := request_new_mmap_block os aligned_size in
      if fst r =? 0 then ret (0, snd r)
      else ret (fst r + HEADER_SIZE, snd r)
    else
      let* found := find_free_block aligned_size in
      if negb (found =? 0) then
        let* block := split_block found aligned_size in
        update block (with_is_free false) ;;;
        update block (with_magic MAGIC) ;;;
        ret (block + HEADER_SIZE, [])
      else
        let* r := request_new_heap_block os aligned_size in
        if fst r =? 0 then ret (0, snd r)
        else ret (fst r + HEADER_SIZE, snd r).

(** [memset(ptr, 0, n)] *)
Definition memset_zero (ptr n : Z) (bytes : Z -> byte) : Z -> byte :=
  fun a => if (ptr <=? a) && (a <? ptr + n) then x00 else bytes a.

Definition my_calloc (os : option Z) (nelem sz : Z) : M (Z * list event) :=
  let total_size := wrap (nelem * sz) in
  if negb (sz =? 0) && negb (total_size / sz =? nelem) then ret (0, [])
  else
    let* r := my_malloc os total_size in
    (if negb (fst r =? 0) then
       let* st := get id in
       modify (with_payload (memset_zero (fst r) total_size (payload st)))
     else ret tt) ;;;
    ret r.

(** [unmap_ok] is the verdict of [munmap] if it is called.  A successful
    [munmap] takes the header out of memory. *)
Definition my_free (unmap_ok : bool) (ptr : Z) : M (list event) :=
  if ptr =? 0 then ret []
  else
    let block := ptr - HEADER_SIZE in
    let* h := load block in
    if negb (magic h =? MAGIC) then ret [EInvalidFree block]
    else if is_mmap h then
      let total_size := wrap (size h + HEADER_SIZE) in
      if unmap_ok then
        modify (fun st => with_mem (delete block (mem st)) st) ;;;
        ret [EMunmap block total_size]
      else ret [EMunmap block total_size; EMappingError]
    else
      update block (with_is_free true) ;;;
      update block (with_magic 0) ;;;
      merge_adjacent_free_blocks block ;;;
      ret [].

End Allocator.

(** ** Vocabulary of the statements *)

(** [reach m a b]: following [next] fields from [a] leads to [b]. *)
Inductive reach (m : gmap Z block_header) : Z -> Z -> Prop :=
| reach_refl a : reach m a a
| reach_step a h b :
    a <> 0 -> m !! a = Some h -> reach m (next h) b -> reach m a b.


(** [chain m a l]: the list that starts at [a] ends at the null pointer
    and consists of the blocks [l], in link order. *)
Inductive chain (m : gmap Z block_header) : Z -> list Z -> Prop :=
| chain_nil : chain m 0 []
| chain_cons a h l :
    a <> 0 -> m !! a = Some h -> chain m (next h) l -> chain m a (a :: l).

(** First fit over the registry as a list: the first block that is free
    and large enough, or the null pointer. *)
Fixpoint first_fit (m : gmap Z block_header) (sz : Z) (l : list Z) : Z :=
  match l with
  | [] => 0
  | a :: l' =>
      match m !! a with
      | Some h => if is_free h && (sz <=? size h) then a else first_fit m sz l'
      | None => 0
      end
  end.

(** What a release does to the registry, step by step: the released block
    [b] (header [h], between the blocks [l1] and [l2] of the registry) is
    marked free and loses its tag; it absorbs its successor if that one is
    free; then its predecessor, if that one is free, absorbs it.  The
    result is the new memory and the new registry. *)
Definition released (h : block_header) : block_header :=
  with_magic 0 (with_is_free true h).

Definition absorb (h n : block_header) : block_header :=
  with_next (next n)
    (with_size (wrap (size h + wrap (HEADER_SIZE + size n))) h).

Definition absorb_next (m : gmap Z block_header) (h : block_header)
  (l2 : list Z) : block_header * list Z :=
  match l2 with
  | n :: rest =>
      match m !! n with
      | Some hn => if is_free hn then (absorb h hn, rest) else (h, l2)
      | None => (h, l2)
      end
  | [] => (h, l2)
  end.

Definition absorb_into_prev (m : gmap Z block_header) (l1 : list Z)
  (b : Z) (hb : block_header) (l2 : list Z) : gmap Z block_header * list Z :=
  match last l1 with
  | Some q =>
      match m !! q with
      | Some hq =>
          if is_free hq then (<[q := absorb hq hb]> m, l1 ++ l2)
          else (m, l1 ++ b :: l2)
      | None => (m, l1 ++ b :: l2)
      end
  | None => (m, l1 ++ b :: l2)
  end.

Definition coalesce (m : gmap Z block_header) (l1 : list Z) (b : Z)
  (h : block_header) (l2 : list Z) : gmap Z block_header * list Z :=
  let r := absorb_next m (released h) l2 in
  absorb_into_prev (<[b := fst r]> m) l1 b (fst r) (snd r).

(** The three list walks of the C file have one shape: stop at the null
    pointer, or at the first block whose header satisfies [stop]. *)
Fixpoint walk (stop : block_header -> bool) (fuel : nat)
  (m : gmap Z block_header) (current : Z) : outcome Z :=
  match fuel with
  | O => Diverge
  | S k =>
      if current =? 0 then Done 0
      else match m !! current with
           | None => Fault
           | Some h =>
               if stop h then Done current else walk stop k m (next h)
           end
  end.

(** [trail stop m a l r]: the walk from [a] passes the blocks [l] and ends
    with [r]. *)
Inductive trail (stop : block_header -> bool) (m : gmap Z block_header)
  : Z -> list Z -> outcome Z -> Prop :=
| trail_null : trail stop m 0 [] (Done 0)
| trail_fault a : a <> 0 -> m !! a = None -> trail stop m a [] Fault
| trail_stop a h :
    a <> 0 -> m !! a = Some h -> stop h = true -> trail stop m a [] (Done a)
| trail_next a h l r :
    a <> 0 -> m !! a = Some h -> stop h = false ->
    trail stop m (next h) l r -> trail stop m a (a :: l) r.

(** Every block reachable from [r] is an arena block: it has a header and
    the header does not say [is_mmap]. *)
Definition arena_from (m : gmap Z block_header) (r : Z) : Prop :=
  forall a, a <> 0 -> reach m r a ->
            exists h, m !! a = Some h /\ is_mmap h = false.

Definition no_mapped_linked (st : state) : Prop :=
  arena_from (mem st) (free_list st).



(** Headers sit at positive addresses that are multiples of [k], and so do
    the bounds of the arena ([k] is 16 for the alignment of the payloads,
    and 1 when only the sign matters). *)
Definition addresses_ok (k : Z) (st : state) : Prop :=
  (forall a, a ∈ dom (mem st) -> 0 < a /\ a mod k = 0) /\
  0 <= heap_start st /\ heap_start st mod k = 0 /\
  0 <= heap_end st /\ heap_end st mod k = 0.

(** The header at [y] describes an arena block. *)
Definition arena_at (m : gmap Z block_header) (y : Z) : Prop :=
  exists h, m !! y = Some h /\ is_mmap h = false.

(** Two states with the same headers in place and the same arena bounds. *)
Definition same_layout (st st' : state) : Prop :=
  dom (mem st') = dom (mem st) /\
  heap_start st' = heap_start st /\ heap_end st' = heap_end st.

(** What the operating system may answer to [mmap]: failure, or a
    page-aligned, non-null address at which the allocator has no header. *)
Definition os_ok (page_size : Z) (st : state) (os : option Z) : Prop :=
  match os with
  | None => True
  | Some a => 0 < a /\ a mod page_size = 0 /\ mem st !! a = None
  end.

(** The states a program can bring the allocator into through its three
    entry points.  A call that ends in [Fault] or [Diverge] (a release of
    a pointer with no header in front of it, a walk over a cyclic list) has
    no successor state. *)
Inductive reachable (page_size : Z) : state -> Prop :=
| reachable_init : reachable page_size initial_state
| reachable_malloc st os sz r st' :
    reachable page_size st -> os_ok page_size st os ->
    my_malloc page_size os sz st = Done (r, st') ->
    reachable page_size st'
| reachable_calloc st os nelem sz r st' :
    reachable page_size st -> os_ok page_size st os ->
    my_calloc page_size os nelem sz st = Done (r, st') ->
    reachable page_size st'
| reachable_free st unmap_ok ptr evs st' :
    reachable page_size st ->
    my_free unmap_ok ptr st = Done (evs, st') ->
    reachable page_size st'.

(** Two headers that differ at most in their link. *)
Definition same_block (h h' : block_header) : Prop :=
  size h' = size h /\ is_free h' = is_free h /\
  is_mmap h' = is_mmap h /\ magic h' = magic h.

(** A block is unfit for a request of [sz] bytes when it is in use or too
    small. *)
Definition unfit (m : gmap Z block_header) (sz : Z) (x : Z) : Prop :=
  forall hx, m !! x = Some hx -> is_free hx = false \/ size hx < sz.

(** [st'] differs from [st] in the headers only. *)
Definition mem_only (st st' : state) : Prop := st' = with_mem (mem st') st.

(** Every header of [m] is still in [m'], up to its link. *)
Definition same_blocks (m m' : gmap Z block_header) : Prop :=
  forall x hx, m !! x = Some hx ->
               exists hx', m' !! x = Some hx' /\ same_block hx hx'.





(** ** The scenario of the specification

    4 KiB pages; the first arena is mapped at [0x10000].  Sizes 32, 64 and
    128 are allocated in this order, then the 64-byte block is released. *)

Definition after {A} (c : M A) (st : state) : state :=
  match c st with
  | Done (_, st') => st'
  | _ => st
  end.

Definition scenario_page : Z := 4096.
Definition scenario_arena : Z := 65536.

Definition scenario1 : state :=
  after (my_malloc scenario_page (Some scenario_arena) 32) initial_state.
Definition scenario2 : state :=
  after (my_malloc scenario_page None 64) scenario1.
Definition scenario3 : state :=
  after (my_malloc scenario_page None 128) scenario2.

(** A large request, served by a mapping of its own at [0x100000], and its
    release. *)
Definition large_mapping : Z := 1048576.
Definition large1 : state :=
  after (my_malloc scenario_page (Some large_mapping) 8192) scenario1.

Definition second_mapping : Z := 2097152.

(** * Arithmetic of the size normalizer *)

Lemma walk_fuel_eq m : walk_fuel m = S (base.size m).
Proof. reflexivity. Qed.

(** From here on the fuel is only ever unfolded through [walk_fuel_eq]. *)
Opaque walk_fuel.

Lemma wrap_range z : 0 <= wrap z < 2 ^ 64.
Proof. unfold wrap. apply Z.mod_pos_bound. lia. Qed.

Lemma wrap_small z : 0 <= z < 2 ^ 64 -> wrap z = z.
Proof. intros H. unfold wrap. now apply Z.mod_small. Qed.

Lemma align_size_eq sz : align_size sz = 16 * (wrap (sz + 15) / 16).
Proof.
  unfold align_size, ALIGNMENT.
  replace (sz + 16 - 1) with (sz + 15) by lia.
  change (16 - 1) with (Z.ones 4).
  rewrite <- Z.ldiff_land, Z.ldiff_ones_r by lia.
  rewrite Z.shiftl_mul_pow2, Z.shiftr_div_pow2 by lia.
  change (2 ^ 4) with 16. lia.
Qed.

Lemma align_size_mod16 sz : align_size sz mod 16 = 0.
Proof.
  rewrite align_size_eq, Z.mul_comm. apply Z.mod_mul. lia.
Qed.

Lemma align_size_range sz : 0 <= align_size sz < 2 ^ 64.
Proof.
  rewrite align_size_eq. pose proof (wrap_range (sz + 15)) as H.
  pose proof (Z.mul_div_le (wrap (sz + 15)) 16).
  assert (0 <= wrap (sz + 15) / 16) by (apply Z.div_pos; lia). lia.
Qed.

Lemma align_size_ge sz : 0 <= sz -> sz + 15 < 2 ^ 64 -> sz <= align_size sz.
Proof.
  intros H0 H1. rewrite align_size_eq, wrap_small by lia.
  pose proof (Z.div_mod (sz + 15) 16).
  pose proof (Z.mod_pos_bound (sz + 15) 16). lia.
Qed.

Lemma align_to_page_range p sz : 0 <= align_to_page p sz < 2 ^ 64.
Proof. apply wrap_range. Qed.

(** The header stores the mapping length minus the header; adding the
    header back gives the mapping length, whatever the wrap-around. *)
Lemma wrap_sub_add len : 0 <= len < 2 ^ 64 ->
  wrap (wrap (len - HEADER_SIZE) + HEADER_SIZE) = len.
Proof.
  intros H. unfold wrap.
  rewrite Z.add_mod_idemp_l by lia.
  replace (len - HEADER_SIZE + HEADER_SIZE) with len by lia.
  now apply Z.mod_small.
Qed.

(** * Reasoning about monadic code *)

Lemma bind_inv {A B} (c : M A) (k : A -> M B) st b st' :
  bind c k st = Done (b, st') ->
  exists a st1, c st = Done (a, st1) /\ k a st1 = Done (b, st').
Proof.
  unfold bind. destruct (c st) as [[a st1]| |]; try discriminate.
  intros H. exists a, st1. auto.
Qed.

Lemma ret_inv {A} (a b : A) st st' :
  ret a st = Done (b, st') -> b = a /\ st' = st.
Proof. unfold ret. intros H. inversion H. auto. Qed.

Lemma get_inv {A} (f : state -> A) b st st' :
  get f st = Done (b, st') -> b = f st /\ st' = st.
Proof. unfold get. intros H. inversion H. auto. Qed.

Lemma modify_inv f u st st' :
  modify f st = Done (u, st') -> st' = f st.
Proof. unfold modify. intros H. inversion H. auto. Qed.

Lemma lift_inv {A} (f : state -> outcome A) b st st' :
  lift f st = Done (b, st') -> f st = Done b /\ st' = st.
Proof.
  unfold lift. destruct (f st); try discriminate.
  intros H. inversion H. auto.
Qed.

Lemma load_inv a h st st' :
  load a st = Done (h, st') -> mem st !! a = Some h /\ st' = st.
Proof.
  unfold load. destruct (mem st !! a); try discriminate.
  intros H. inversion H. auto.
Qed.

Lemma store_inv a h u st st' :
  store a h st = Done (u, st') -> st' = with_mem (<[a := h]> (mem st)) st.
Proof. unfold store. intros H. now apply modify_inv in H. Qed.

Lemma update_inv a f u st st' :
  update a f st = Done (u, st') ->
  exists h, mem st !! a = Some h /\
            st' = with_mem (<[a := f h]> (mem st)) st.
Proof.
  unfold update. intros H. apply bind_inv in H as (h & st1 & H1 & H2).
  apply load_inv in H1 as [H1 ->]. apply store_inv in H2. eauto.
Qed.

(** Decompose an equation [c st = Done _] along the structure of [c]. *)
Ltac minv H :=
  lazymatch type of H with
  | bind _ _ _ = Done _ =>
      let a := fresh "v" in let st1 := fresh "st" in
      let H1 := fresh "E" in let H2 := fresh "E" in
      apply bind_inv in H as (a & st1 & H1 & H2); minv H1; minv H2
  | ret _ _ = Done _ =>
      let Ha := fresh "R" in
      apply ret_inv in H as [Ha ->]; simplify_eq
  | get _ _ = Done _ => apply get_inv in H as [-> ->]
  | modify _ _ = Done _ => apply modify_inv in H as ->
  | lift _ _ = Done _ =>
      let H1 := fresh "E" in apply lift_inv in H as [H1 ->]
  | load _ _ = Done _ =>
      let H1 := fresh "L" in apply load_inv in H as [H1 ->]
  | store _ _ _ = Done _ => apply store_inv in H as ->
  | update _ _ _ = Done _ =>
      let h := fresh "h" in let H1 := fresh "L" in
      apply update_inv in H as (h & H1 & ->)
  | _ => idtac
  end.

Ltac minv_all :=
  repeat match goal with
         | H : _ = Done _ |- _ => progress (minv H)
         end.

(** * The fuel of the list walks is enough

    A walk that ends at all ends within [walk_fuel] steps: it never passes
    a block twice, so it passes at most as many blocks as memory holds
    headers.  [Diverge] therefore stands for a walk that runs forever on a
    cyclic list, and for nothing else. *)

Lemma walk_trail stop fuel m a r :
  walk stop fuel m a = r -> r <> Diverge ->
  exists l, trail stop m a l r /\ (length l < fuel)%nat.
Proof.
  revert a. induction fuel as [|n IH]; simpl; intros a H Hr; [congruence|].
  destruct (a =? 0) eqn:Ha.
  - apply Z.eqb_eq in Ha. subst. exists []. split; [constructor|simpl; lia].
  - apply Z.eqb_neq in Ha. destruct (m !! a) as [h|] eqn:L.
    + destruct (stop h) eqn:Hs.
      * subst. exists []. split; [eapply trail_stop; eauto|simpl; lia].
      * destruct (IH _ H Hr) as (l & Ht & Hl).
        exists (a :: l). split; [eapply trail_next; eauto|simpl; lia].
    + subst. exists []. split; [now apply trail_fault|simpl; lia].
Qed.

Lemma trail_walk stop fuel m a l r :
  trail stop m a l r -> (length l < fuel)%nat -> walk stop fuel m a = r.
Proof.
  intros H. revert fuel.
  induction H as [|a Ha L|a h Ha L Hs|a h l r Ha L Hs _ IH]; intros fuel Hf;
    (destruct fuel; [simpl in Hf; lia|]); simpl.
  - reflexivity.
  - apply Z.eqb_neq in Ha. now rewrite Ha, L.
  - apply Z.eqb_neq in Ha. now rewrite Ha, L, Hs.
  - apply Z.eqb_neq in Ha. rewrite Ha, L, Hs. apply IH. simpl in Hf. lia.
Qed.

Lemma trail_functional stop m a l1 r1 l2 r2 :
  trail stop m a l1 r1 -> trail stop m a l2 r2 -> l1 = l2 /\ r1 = r2.
Proof.
  intros H. revert l2 r2.
  induction H as [|a Ha L|a h Ha L Hs|a h l r Ha L Hs _ IH]; intros l2 r2 H2;
    inversion H2; subst; try congruence; auto.
  match goal with H : m !! a = Some ?h0 |- _ =>
    rewrite L in H; inversion H; subst h0 end.
  match goal with H : trail stop m (next h) _ _ |- _ =>
    destruct (IH _ _ H) as [-> ->] end.
  auto.
Qed.

Lemma trail_suffix stop m a l1 x l2 r :
  trail stop m a (l1 ++ x :: l2) r -> trail stop m x (x :: l2) r.
Proof.
  revert a. induction l1 as [|y l1 IH]; simpl; intros a H.
  - inversion H; subst. eapply trail_next; eauto.
  - inversion H; subst. eauto.
Qed.

Lemma trail_lookup stop m a l r x :
  trail stop m a l r -> x ∈ l -> is_Some (m !! x).
Proof.
  induction 1 as [|a Ha L|a h Ha L Hs|a h l r Ha L Hs _ IH]; intros Hx;
    try (now apply not_elem_of_nil in Hx).
  apply elem_of_cons in Hx as [->|Hx]; eauto.
Qed.

Lemma trail_NoDup stop m a l r : trail stop m a l r -> NoDup l.
Proof.
  induction 1 as [|a Ha L|a h Ha L Hs|a h l r Ha L Hs Ht IH];
    try constructor; [|exact IH].
  intros Hin. apply list_elem_of_split in Hin as (l1 & l2 & ->).
  pose proof (trail_suffix _ _ _ _ _ _ _ Ht) as Hsuf.
  assert (Hfull : trail stop m a (a :: l1 ++ a :: l2) r)
    by (eapply trail_next; eauto).
  destruct (trail_functional _ _ _ _ _ _ _ Hsuf Hfull) as [Heq _].
  apply (f_equal length) in Heq. simpl in Heq.
  rewrite length_app in Heq. simpl in Heq. lia.
Qed.

Lemma trail_fuel stop m a l r :
  trail stop m a l r -> (length l < walk_fuel m)%nat.
Proof.
  intros H. pose proof (trail_NoDup _ _ _ _ _ H) as Hnd.
  assert (length l <= base.size m)%nat.
  { rewrite <- size_dom, <- (size_list_to_set (C := gset Z) l) by exact Hnd.
    apply subseteq_size. intros x Hx. apply elem_of_list_to_set in Hx.
    apply elem_of_dom. eapply trail_lookup; eauto. }
  rewrite walk_fuel_eq. lia.
Qed.

Lemma walk_fuel_enough stop fuel m a :
  walk stop fuel m a <> Diverge ->
  walk stop (walk_fuel m) m a = walk stop fuel m a.
Proof.
  intros Hr. destruct (walk_trail stop fuel m a _ eq_refl Hr) as (l & Ht & _).
  eapply trail_walk; [exact Ht|]. eapply trail_fuel; eauto.
Qed.

Lemma find_free_loop_walk fuel m sz a :
  find_free_loop fuel m sz a
  = walk (fun h => is_free h && (sz <=? size h)) fuel m a.
Proof.
  revert a. induction fuel as [|n IH]; simpl; intros a; [reflexivity|].
  destruct (a =? 0); [reflexivity|]. destruct (m !! a) as [h|]; [|reflexivity].
  destruct (is_free h && (sz <=? size h)); [reflexivity|apply IH].
Qed.

Lemma find_prev_loop_walk fuel m block a :
  find_prev_loop fuel m block a = walk (fun h => next h =? block) fuel m a.
Proof.
  revert a. induction fuel as [|n IH]; simpl; intros a; [reflexivity|].
  destruct (a =? 0); [reflexivity|]. destruct (m !! a) as [h|]; [|reflexivity].
  destruct (next h =? block); [reflexivity|apply IH].
Qed.

Lemma last_block_walk fuel m a :
  a <> 0 -> last_block fuel m a = walk (fun h => next h =? 0) fuel m a.
Proof.
  revert a. induction fuel as [|n IH]; simpl; intros a Ha; [reflexivity|].
  apply Z.eqb_neq in Ha. rewrite Ha.
  destruct (m !! a) as [h|]; [|reflexivity].
  destruct (next h =? 0) eqn:Hn; [reflexivity|].
  apply IH. now apply Z.eqb_neq.
Qed.

(** Each of the three loops gives with [walk_fuel] the result it gives
    with any amount of fuel that lets it end. *)
Lemma loops_fuel_enough fuel m sz block a :
  (find_free_loop fuel m sz a <> Diverge ->
   find_free_loop (walk_fuel m) m sz a = find_free_loop fuel m sz a) /\
  (find_prev_loop fuel m block a <> Diverge ->
   find_prev_loop (walk_fuel m) m block a = find_prev_loop fuel m block a) /\
  (a <> 0 -> last_block fuel m a <> Diverge ->
   last_block (walk_fuel m) m a = last_block fuel m a).
Proof.
  split; [|split].
  - rewrite !find_free_loop_walk. apply walk_fuel_enough.
  - rewrite !find_prev_loop_walk. apply walk_fuel_enough.
  - intros Ha. rewrite !last_block_walk by exact Ha. apply walk_fuel_enough.
Qed.

(** * Headers stay at aligned addresses *)

Section Alignment.

(** The modulus: a divisor of 16. *)
Variable k : Z.
Hypothesis k_pos : 0 < k.
Hypothesis k_div : (k | 16).

Lemma modk_of_mod16 a : a mod 16 = 0 -> a mod k = 0.
Proof.
  intros Ha. apply (Z.mod_divide a 16) in Ha; [|lia].
  apply Z.mod_divide; [lia|]. eapply Z.divide_trans; [exact k_div|exact Ha].
Qed.

Lemma modk_add a b : a mod k = 0 -> b mod k = 0 -> (a + b) mod k = 0.
Proof.
  intros Ha Hb. rewrite Z.add_mod, Ha, Hb by lia. apply Z.mod_0_l. lia.
Qed.

Lemma wrap_modk z : wrap z mod k = z mod k.
Proof.
  unfold wrap. apply Z.mod_mod_divide.
  eapply Z.divide_trans; [exact k_div|]. exists (2 ^ 60). reflexivity.
Qed.

Lemma align_size_modk sz : align_size sz mod k = 0.
Proof. apply modk_of_mod16, align_size_mod16. Qed.

Lemma header_size_modk : HEADER_SIZE mod k = 0.
Proof. apply modk_of_mod16. reflexivity. Qed.

Lemma heap_expansion_modk : HEAP_EXPANSION_SIZE mod k = 0.
Proof. apply modk_of_mod16. reflexivity. Qed.

Lemma align_to_page_modk p sz : p mod k = 0 -> align_to_page p sz mod k = 0.
Proof.
  intros Hp. unfold align_to_page. rewrite wrap_modk.
  rewrite <- Z.mul_mod_idemp_r, Hp, Z.mul_0_r by lia. apply Z.mod_0_l. lia.
Qed.

Lemma modk_of_page p a : p mod k = 0 -> a mod p = 0 -> a mod k = 0.
Proof.
  intros Hp Ha. destruct (Z.eq_dec p 0) as [->|Hne].
  - rewrite Z.mod_0_r in Ha. subst. apply Z.mod_0_l. lia.
  - apply Z.mod_divide in Ha; [|exact Hne]. destruct Ha as [j ->].
    rewrite <- Z.mul_mod_idemp_r, Hp, Z.mul_0_r by lia. apply Z.mod_0_l. lia.
Qed.

Lemma same_layout_refl st : same_layout st st.
Proof. unfold same_layout. auto. Qed.

Lemma same_layout_trans st1 st2 st3 :
  same_layout st1 st2 -> same_layout st2 st3 -> same_layout st1 st3.
Proof. unfold same_layout. intros (-> & -> & ->) (-> & -> & ->). auto. Qed.

Lemma same_layout_insert st a h h' :
  mem st !! a = Some h ->
  same_layout st (with_mem (<[a := h']> (mem st)) st).
Proof.
  intros L. unfold same_layout. simpl. split; [|auto].
  apply dom_insert_lookup_L. eauto.
Qed.

Lemma same_layout_free_list st v : same_layout st (with_free_list v st).
Proof. unfold same_layout. auto. Qed.

Lemma addresses_ok_layout st st' :
  same_layout st st' -> addresses_ok k st -> addresses_ok k st'.
Proof.
  unfold same_layout, addresses_ok.
  intros (-> & -> & ->). auto.
Qed.

Lemma update_layout a f u st st' :
  update a f st = Done (u, st') -> same_layout st st'.
Proof. intros H. minv H. eapply same_layout_insert; eauto. Qed.

Lemma append_layout block u st st' :
  append_block_to_free_list block st = Done (u, st') -> same_layout st st'.
Proof.
  unfold append_block_to_free_list. intros H. minv H.
  eapply same_layout_trans; [eapply same_layout_insert; eauto|].
  simpl in E1. destruct (free_list st =? 0).
  - minv E1. apply same_layout_free_list.
  - minv E1. eapply same_layout_insert; eauto.
Qed.

Lemma merge_with_next_layout block u st st' :
  merge_with_next_block block st = Done (u, st') -> same_layout st st'.
Proof.
  unfold merge_with_next_block. intros H. minv H.
  destruct (next v =? 0); [minv E0; apply same_layout_refl|].
  minv E0. destruct (is_free v0); [|minv E1; apply same_layout_refl].
  minv E1.
  eapply same_layout_trans; eapply same_layout_insert; eauto.
Qed.

Lemma merge_with_prev_layout block r st st' :
  merge_with_prev_block block st = Done (r, st') -> same_layout st st'.
Proof.
  unfold merge_with_prev_block, find_prev_block. intros H. minv H.
  destruct (v =? 0); [minv E0; apply same_layout_refl|].
  minv E0. destruct (is_free v0); [|minv E2; apply same_layout_refl].
  minv E2.
  eapply same_layout_trans; eapply same_layout_insert; eauto.
Qed.

Lemma addresses_ok_store st a h :
  addresses_ok k st -> 0 < a -> a mod k = 0 ->
  addresses_ok k (with_mem (<[a := h]> (mem st)) st).
Proof.
  unfold addresses_ok. simpl. intros (Hd & Hr) Ha Hm. split; [|exact Hr].
  intros b. rewrite dom_insert_L, elem_of_union, elem_of_singleton.
  intros [->|Hb]; auto.
Qed.

Lemma addresses_ok_delete st a :
  addresses_ok k st -> addresses_ok k (with_mem (delete a (mem st)) st).
Proof.
  unfold addresses_ok. simpl. intros (Hd & Hr). split; [|exact Hr].
  intros b. rewrite dom_delete_L, elem_of_difference. intros [Hb _]. auto.
Qed.

Lemma addresses_ok_lookup st a h :
  addresses_ok k st -> mem st !! a = Some h -> 0 < a /\ a mod k = 0.
Proof. intros (Hd & _) L. apply Hd, elem_of_dom. eauto. Qed.

Lemma find_free_loop_found fuel m sz current r :
  find_free_loop fuel m sz current = Done r -> r = 0 \/ is_Some (m !! r).
Proof.
  revert current. induction fuel as [|n IH]; simpl; intros c H; [discriminate|].
  destruct (c =? 0); [inversion H; auto|].
  destruct (m !! c) as [h|] eqn:L; [|discriminate].
  destruct (is_free h && (sz <=? size h)).
  - inversion H; subst. right. eauto.
  - eauto.
Qed.

Lemma split_block_addresses_ok block sz r st st' :
  addresses_ok k st -> 0 <= sz -> sz mod k = 0 ->
  split_block block sz st = Done (r, st') ->
  r = block /\ addresses_ok k st'.
Proof.
  unfold split_block. intros Hok Hsz Hm H. minv H. split; [reflexivity|].
  destruct (wrap (sz + (HEADER_SIZE + ALIGNMENT)) <=? size v).
  - minv_all. simpl in *.
    destruct (addresses_ok_lookup _ _ _ Hok L) as [Hp Ha].
    eapply addresses_ok_layout; [eapply same_layout_insert; eauto|].
    eapply addresses_ok_layout; [eapply same_layout_insert; eauto|].
    apply addresses_ok_store; auto.
    + unfold HEADER_SIZE. lia.
    + repeat apply modk_add; auto using header_size_modk.
  - minv_all. exact Hok.
Qed.

Lemma carve_block_addresses_ok total r st st' :
  addresses_ok k st -> 0 < heap_start st -> 0 <= total -> total mod k = 0 ->
  carve_block total st = Done (r, st') ->
  r = heap_start st /\ addresses_ok k st'.
Proof.
  unfold carve_block. intros Hok Hp Ht Hm H. minv_all. simpl in *.
  split; [reflexivity|].
  destruct Hok as (Hd & Hs & Hsm & Hep & Hem).
  match goal with H : append_block_to_free_list _ _ = _ |- _ =>
    apply append_layout in H; eapply addresses_ok_layout; [exact H|] end.
  match goal with H : _ ?s = Done _ |- _ =>
    assert (Hok1 : addresses_ok k s) end.
  { apply (addresses_ok_store (with_heap_start _ st)); [|lia|assumption].
    unfold addresses_ok. simpl.
    split; [exact Hd|]. split; [lia|]. split; [apply modk_add|]; auto. }
  destruct (HEADER_SIZE <? _).
  - minv_all.
    match goal with H : append_block_to_free_list _ _ = _ |- _ =>
      apply append_layout in H; eapply addresses_ok_layout; [exact H|] end.
    simpl.
    destruct Hok1 as (Hd1 & Hs1 & Hsm1 & Hep1 & Hem1). simpl in *.
    unfold addresses_ok. simpl. split; [|auto].
    intros b. rewrite dom_insert_L, elem_of_union, elem_of_singleton.
    intros [->|Hb]; [split; [lia|apply modk_add; assumption]|auto].
  - minv_all. exact Hok1.
Qed.

Lemma request_new_heap_block_addresses_ok p os sz r evs st st' :
  p mod k = 0 -> addresses_ok k st -> os_ok p st os ->
  request_new_heap_block p os sz st = Done ((r, evs), st') ->
  (r = 0 \/ r mod k = 0) /\ addresses_ok k st'.
Proof.
  unfold request_new_heap_block. intros Hp Hok Hos H. minv_all.
  pose proof (align_to_page_range p (wrap (sz + HEADER_SIZE))) as Hr.
  pose proof (align_to_page_modk p (wrap (sz + HEADER_SIZE)) Hp) as Hm.
  pose proof Hok as (Hd & Hs & Hsm & Hep & Hem).
  destruct ((heap_start st =? 0) || _) eqn:Hc.
  - destruct os as [new_heap|]; minv_all; [|auto].
    destruct Hos as (Hpos & Hal & _).
    pose proof (modk_of_page _ _ Hp Hal) as Ha.
    match goal with H : carve_block _ _ = _ |- _ =>
      apply carve_block_addresses_ok in H as [-> Hok'] end;
      simpl; try lia; try assumption.
    + simpl. auto.
    + unfold addresses_ok. simpl.
      split; [exact Hd|]. split; [lia|]. split; [assumption|].
      split; [unfold HEAP_EXPANSION_SIZE; lia|apply modk_add];
        auto using heap_expansion_modk.
  - apply orb_false_iff in Hc as [Hz _]. apply Z.eqb_neq in Hz.
    minv_all.
    match goal with H : carve_block _ _ = _ |- _ =>
      apply carve_block_addresses_ok in H as [-> Hok'] end;
      simpl; try lia; try assumption.
    auto.
Qed.

Lemma request_new_mmap_block_addresses_ok p os sz r evs st st' :
  p mod k = 0 -> addresses_ok k st -> os_ok p st os ->
  request_new_mmap_block p os sz st = Done ((r, evs), st') ->
  (r = 0 \/ r mod k = 0) /\ addresses_ok k st'.
Proof.
  unfold request_new_mmap_block. intros Hp Hok Hos H.
  destruct os as [a|]; minv_all; [|auto].
  destruct Hos as (Hpos & Hal & _).
  pose proof (modk_of_page _ _ Hp Hal) as Ha.
  split; [auto|]. apply addresses_ok_store; auto.
Qed.

Lemma my_malloc_addresses_ok p os sz r evs st st' :
  p mod k = 0 -> addresses_ok k st -> os_ok p st os ->
  my_malloc p os sz st = Done ((r, evs), st') ->
  (r = 0 \/ r mod k = 0) /\ addresses_ok k st'.
Proof.
  unfold my_malloc. intros Hp Hok Hos H.
  destruct (sz =? 0); [minv_all; auto|].
  destruct (MMAP_THRESHOLD <=? align_size sz).
  - minv_all. destruct v as [b e].
    match goal with H : request_new_mmap_block _ _ _ _ = _ |- _ =>
      apply request_new_mmap_block_addresses_ok in H as [Hb Hok']; auto end.
    simpl in *. destruct (b =? 0) eqn:Hz; minv_all; [auto|].
    apply Z.eqb_neq in Hz. split; [|assumption]. right.
    destruct Hb; [contradiction|]. apply modk_add; auto using header_size_modk.
  - unfold find_free_block in H. minv_all.
    destruct (negb (v =? 0)) eqn:Hz.
    + apply negb_true_iff, Z.eqb_neq in Hz.
      match goal with H : find_free_loop _ _ _ _ = _ |- _ =>
        apply find_free_loop_found in H as [?|[hv Hv]]; [contradiction|] end.
      destruct (addresses_ok_lookup _ _ _ Hok Hv) as [Hpos Hal].
      pose proof (align_size_range sz). pose proof (align_size_modk sz).
      minv_all.
      match goal with H : split_block _ _ _ = _ |- _ =>
        apply split_block_addresses_ok in H as [-> Hok']; auto; try lia end.
      split; [right; apply modk_add; auto using header_size_modk|].
      eapply addresses_ok_layout; [eapply same_layout_insert; eauto|].
      eapply addresses_ok_layout; [eapply same_layout_insert; eauto|].
      assumption.
    + minv_all. destruct v0 as [b e].
      match goal with H : request_new_heap_block _ _ _ _ = _ |- _ =>
        apply request_new_heap_block_addresses_ok in H as [Hb Hok']; auto end.
      simpl in *. destruct (b =? 0) eqn:Hb0; minv_all; [auto|].
      apply Z.eqb_neq in Hb0. split; [|assumption]. right.
      destruct Hb; [contradiction|]. apply modk_add; auto using header_size_modk.
Qed.

Lemma my_calloc_addresses_ok p os nelem sz r evs st st' :
  p mod k = 0 -> addresses_ok k st -> os_ok p st os ->
  my_calloc p os nelem sz st = Done ((r, evs), st') ->
  (r = 0 \/ r mod k = 0) /\ addresses_ok k st'.
Proof.
  unfold my_calloc. intros Hp Hok Hos H.
  destruct (negb (sz =? 0) && _); [minv_all; auto|].
  minv_all.
  match goal with H : my_malloc _ _ _ _ = _ |- _ =>
    apply my_malloc_addresses_ok in H as [Hr Hok']; auto end.
  split; [exact Hr|]. simpl in *.
  destruct (negb (r =? 0)); minv_all; assumption.
Qed.

Lemma my_free_addresses_ok ok ptr evs st st' :
  addresses_ok k st -> my_free ok ptr st = Done (evs, st') -> addresses_ok k st'.
Proof.
  unfold my_free, merge_adjacent_free_blocks. intros Hok H.
  destruct (ptr =? 0); [minv_all; auto|]. minv_all.
  destruct (negb (magic v =? MAGIC)); [minv_all; auto|].
  destruct (is_mmap v).
  - destruct ok; minv_all; [apply addresses_ok_delete|]; auto.
  - minv_all.
    repeat match goal with
           | H : merge_with_prev_block _ _ = _ |- _ =>
               apply merge_with_prev_layout in H
           | H : merge_with_next_block _ _ = _ |- _ =>
               apply merge_with_next_layout in H
           end.
    eapply addresses_ok_layout; [eassumption|].
    eapply addresses_ok_layout; [eassumption|].
    eapply addresses_ok_layout; [eapply same_layout_insert; eauto|].
    eapply addresses_ok_layout; [eapply same_layout_insert; eauto|].
    assumption.
Qed.

Lemma initial_addresses_ok : addresses_ok k initial_state.
Proof.
  unfold addresses_ok, initial_state. simpl. split; [|auto with zarith].
  intros a. rewrite dom_empty_L. intros Ha. now apply not_elem_of_empty in Ha.
Qed.

Lemma reachable_addresses_ok p st :
  p mod k = 0 -> reachable p st -> addresses_ok k st.
Proof.
  intros Hp H. induction H as [|st os sz [r e] st' _ IH Hos Hm
                               |st os n sz [r e] st' _ IH Hos Hc
                               |st ok ptr evs st' _ IH Hf].
  - apply initial_addresses_ok.
  - eapply my_malloc_addresses_ok; eauto.
  - eapply my_calloc_addresses_ok; eauto.
  - eapply my_free_addresses_ok; eauto.
Qed.

End Alignment.

(** * Mapped blocks stay out of the registry *)

Lemma reach_trans m a b c : reach m a b -> reach m b c -> reach m a c.
Proof.
  induction 1 as [a|a h b Ha L _ IH]; [auto|].
  intros Hc. eapply reach_step; eauto.
Qed.

Lemma reach_null m a : reach m 0 a -> a = 0.
Proof. inversion 1; [reflexivity|contradiction]. Qed.

(** A path in the memory after a write at [x] is a path of the memory
    before it, or it runs through [x] and goes on from the new [next]. *)
Lemma reach_insert m x h' a b :
  reach (<[x := h']> m) a b ->
  reach m a b \/ (x <> 0 /\ reach m a x /\ reach m (next h') b).
Proof.
  induction 1 as [a|a h b Ha L _ IH].
  - left. constructor.
  - destruct (decide (a = x)) as [->|Hne].
    + rewrite lookup_insert_eq in L. inversion L; subst h.
      right. split; [assumption|]. split; [constructor|].
      destruct IH as [IH|(_ & _ & IH)]; exact IH.
    + rewrite lookup_insert_ne in L by congruence.
      destruct IH as [IH|(Hx & IH1 & IH2)].
      * left. eapply reach_step; eauto.
      * right. split; [assumption|]. split; [|assumption].
        eapply reach_step; eauto.
Qed.

Lemma reach_insert_same_next m x h h' a b :
  m !! x = Some h -> next h' = next h ->
  reach (<[x := h']> m) a b -> reach m a b.
Proof.
  intros L Hn H. apply reach_insert in H as [H|(Hx & H1 & H2)]; [exact H|].
  eapply reach_trans; [exact H1|]. rewrite Hn in H2.
  eapply reach_step; eauto.
Qed.

Lemma reach_delete m x a b : reach (delete x m) a b -> reach m a b.
Proof.
  induction 1 as [a|a h b Ha L _ IH]; [constructor|].
  apply lookup_delete_Some in L as [_ L]. eapply reach_step; eauto.
Qed.

Lemma arena_from_null m : arena_from m 0.
Proof. intros a Ha H. apply reach_null in H. contradiction. Qed.

Lemma arena_from_reach m r x : arena_from m r -> reach m r x -> arena_from m x.
Proof. intros H Hx a Ha Hr. apply H; [assumption|]. eapply reach_trans; eauto. Qed.

Lemma arena_from_next m r h :
  arena_from m r -> r <> 0 -> m !! r = Some h -> arena_from m (next h).
Proof.
  intros H Hr L a Ha Hreach. apply H; [assumption|]. eapply reach_step; eauto.
Qed.

Lemma arena_from_root m r h :
  m !! r = Some h -> is_mmap h = false -> arena_from m (next h) ->
  arena_from m r.
Proof.
  intros L Hk H a Ha Hr. inversion Hr; subst.
  - eauto.
  - match goal with H1 : m !! r = Some ?h0 |- _ =>
      rewrite L in H1; inversion H1; subst h0 end.
    auto.
Qed.

Lemma arena_from_insert m r x h' :
  arena_from m r ->
  (x <> 0 -> reach m r x ->
   is_mmap h' = false /\ arena_from m (next h')) ->
  arena_from (<[x := h']> m) r.
Proof.
  intros H Hx a Ha Hr.
  assert (Hold : (exists h, m !! a = Some h /\ is_mmap h = false) /\
                 (a = x -> is_mmap h' = false)).
  { apply reach_insert in Hr as [Hr|(Hx0 & Hr1 & Hr2)].
    - split; [auto|]. intros ->. apply Hx; auto.
    - destruct (Hx Hx0 Hr1) as [Hk Hv]. split; [auto|]. intros _. exact Hk. }
  destruct Hold as [(h & L & Hk) Hxk].
  destruct (decide (a = x)) as [->|Hne].
  - rewrite lookup_insert_eq. eauto.
  - rewrite lookup_insert_ne by congruence. eauto.
Qed.

Lemma arena_from_insert_keep m r x h h' :
  m !! x = Some h -> next h' = next h -> is_mmap h' = is_mmap h ->
  arena_from m r -> arena_from (<[x := h']> m) r.
Proof.
  intros L Hn Hk H a Ha Hr.
  eapply reach_insert_same_next in Hr; eauto.
  destruct (H a Ha Hr) as (ha & La & Hka).
  destruct (decide (a = x)) as [->|Hne].
  - rewrite lookup_insert_eq. rewrite L in La. inversion La; subst.
    exists h'. split; [reflexivity|congruence].
  - rewrite lookup_insert_ne by congruence. eauto.
Qed.

Lemma arena_from_insert_fresh m r x h' :
  m !! x = None -> arena_from m r -> arena_from (<[x := h']> m) r.
Proof.
  intros L H a Ha Hr.
  assert (Hold : exists h, m !! a = Some h /\ is_mmap h = false).
  { apply reach_insert in Hr as [Hr|(Hx0 & Hr1 & _)]; [auto|].
    destruct (H x Hx0 Hr1) as (h & Lx & _). congruence. }
  destruct Hold as (h & La & Hk).
  rewrite lookup_insert_ne by congruence. eauto.
Qed.

Lemma arena_from_delete m r x h :
  m !! x = Some h -> is_mmap h = true -> arena_from m r ->
  arena_from (delete x m) r.
Proof.
  intros L Hk H a Ha Hr. apply reach_delete in Hr.
  destruct (H a Ha Hr) as (ha & La & Hka).
  rewrite lookup_delete_ne by congruence. eauto.
Qed.

Lemma find_free_loop_reach fuel m sz current r :
  find_free_loop fuel m sz current = Done r -> r <> 0 -> reach m current r.
Proof.
  revert current. induction fuel as [|k IH]; simpl; intros c H Hr; [discriminate|].
  destruct (c =? 0) eqn:Hc; [inversion H; congruence|].
  apply Z.eqb_neq in Hc.
  destruct (m !! c) as [h|] eqn:L; [|discriminate].
  destruct (is_free h && (sz <=? size h)).
  - inversion H; subst. constructor.
  - eapply reach_step; eauto.
Qed.

Lemma find_prev_loop_reach fuel m block current r :
  find_prev_loop fuel m block current = Done r -> r <> 0 ->
  reach m current r /\ exists h, m !! r = Some h /\ next h = block.
Proof.
  revert current. induction fuel as [|k IH]; simpl; intros c H Hr; [discriminate|].
  destruct (c =? 0) eqn:Hc; [inversion H; congruence|].
  apply Z.eqb_neq in Hc.
  destruct (m !! c) as [h|] eqn:L; [|discriminate].
  destruct (next h =? block) eqn:Hn.
  - apply Z.eqb_eq in Hn. inversion H; subst. split; [constructor|eauto].
  - destruct (IH _ H Hr) as [Hreach Hh]. split; [|exact Hh].
    eapply reach_step; eauto.
Qed.

Lemma last_block_reach fuel m current r :
  last_block fuel m current = Done r -> current <> 0 ->
  r <> 0 /\ reach m current r.
Proof.
  revert current. induction fuel as [|k IH]; simpl; intros c H Hc; [discriminate|].
  destruct (m !! c) as [h|] eqn:L; [|discriminate].
  destruct (next h =? 0) eqn:Hn.
  - inversion H; subst. split; [assumption|constructor].
  - apply Z.eqb_neq in Hn. destruct (IH _ H Hn) as [Hr Hreach].
    split; [assumption|]. eapply reach_step; eauto.
Qed.

(** A block whose [next] is null heads a list of one block. *)
Lemma arena_from_single m x h :
  m !! x = Some h -> next h = 0 -> is_mmap h = false -> arena_from m x.
Proof.
  intros L Hn Hk. eapply arena_from_root; eauto.
  rewrite Hn. apply arena_from_null.
Qed.

Lemma append_no_mapped block u st st' :
  no_mapped_linked st ->
  (exists h, mem st !! block = Some h /\ is_mmap h = false) ->
  append_block_to_free_list block st = Done (u, st') ->
  no_mapped_linked st'.
Proof.
  unfold no_mapped_linked, append_block_to_free_list.
  intros HJ (hb & Lb & Hk) H. minv_all. simpl in *.
  rewrite Lb in L. inversion L; subst h. clear L.
  set (m1 := <[block := with_next 0 hb]> (mem st)) in *.
  assert (H1 : arena_from m1 (free_list st)).
  { apply arena_from_insert; [assumption|]. intros _ _. split; [assumption|].
    apply arena_from_null. }
  assert (Hb : arena_from m1 block).
  { eapply arena_from_single; [apply lookup_insert_eq|reflexivity|assumption]. }
  destruct (free_list st =? 0) eqn:Hfl.
  - minv_all. simpl. exact Hb.
  - apply Z.eqb_neq in Hfl. minv_all. simpl in *.
    match goal with H : last_block _ _ _ = _ |- _ =>
      apply last_block_reach in H as [Hc Hreach]; [|assumption] end.
    apply arena_from_insert; [assumption|]. intros _ Hr. split; [|assumption].
    destruct (H1 _ Hc Hreach) as (hc & Lc & Hkc).
    match goal with H : m1 !! _ = Some ?h0 |- is_mmap (with_next _ ?h0) = _ =>
      rewrite Lc in H; inversion H; subst end.
    assumption.
Qed.

Lemma arena_at_insert m x h' y :
  is_mmap h' = false -> arena_at m y -> arena_at (<[x := h']> m) y.
Proof.
  intros Hk (h & L & Hh). unfold arena_at.
  destruct (decide (y = x)) as [->|Hne].
  - rewrite lookup_insert_eq. eauto.
  - rewrite lookup_insert_ne by congruence. eauto.
Qed.

Lemma arena_at_update m x h f y :
  m !! x = Some h -> is_mmap (f h) = is_mmap h ->
  arena_at m y -> arena_at (<[x := f h]> m) y.
Proof.
  intros L Hk (hy & Ly & Hy). unfold arena_at.
  destruct (decide (y = x)) as [->|Hne].
  - rewrite lookup_insert_eq. rewrite L in Ly. inversion Ly; subst.
    exists (f hy). split; [reflexivity|congruence].
  - rewrite lookup_insert_ne by congruence. eauto.
Qed.

Lemma append_arena_at block u st st' y :
  append_block_to_free_list block st = Done (u, st') ->
  arena_at (mem st) y -> arena_at (mem st') y.
Proof.
  unfold append_block_to_free_list. intros H Hy. minv_all. simpl in *.
  assert (H1 : arena_at (<[block := with_next 0 h]> (mem st)) y)
    by (apply arena_at_update; auto).
  destruct (free_list st =? 0); minv_all; simpl in *; [assumption|].
  apply arena_at_update; auto.
Qed.

Lemma split_block_no_mapped block sz r st st' :
  no_mapped_linked st -> block <> 0 ->
  reach (mem st) (free_list st) block ->
  split_block block sz st = Done (r, st') ->
  no_mapped_linked st' /\ r = block.
Proof.
  unfold no_mapped_linked, split_block. intros HJ Hb Hr H. minv_all.
  destruct (wrap _ <=? size v); minv_all; simpl in *; [|auto].
  split; [|reflexivity].
  rewrite lookup_insert_eq in *. simplify_eq.
  set (new := block + HEADER_SIZE + sz) in *.
  set (hn := mk_header _ true false (next v) MAGIC) in *.
  set (m1 := <[new := hn]> (mem st)) in *.
  assert (Hnext : arena_from (mem st) (next v)).
  { eapply arena_from_next; [eapply arena_from_reach; eauto| |]; eauto. }
  assert (H1 : forall r0, arena_from (mem st) r0 -> arena_from m1 r0).
  { intros r0 Hr0. apply arena_from_insert; [assumption|].
    intros _ _. split; [reflexivity|exact Hnext]. }
  assert (Hnew : arena_from m1 new).
  { eapply arena_from_root; [apply lookup_insert_eq|reflexivity|].
    simpl. apply H1, Hnext. }
  set (m2 := <[block := with_size sz h]> m1) in *.
  assert (H2 : forall r0, arena_from m1 r0 -> arena_from m2 r0).
  { intros r0 Hr0. eapply arena_from_insert_keep; eauto. }
  assert (Hk : is_mmap h = false).
  { destruct (HJ block Hb Hr) as (hb & Lb & Hkb).
    destruct (decide (block = new)) as [e|ne].
    - rewrite e in L0. subst m1. rewrite lookup_insert_eq in L0.
      inversion L0; subst h. reflexivity.
    - subst m1. rewrite lookup_insert_ne in L0 by congruence.
      congruence. }
  apply arena_from_insert; [apply H2, H1, HJ|].
  intros _ _. split; [exact Hk|]. simpl. apply H2, Hnew.
Qed.

Lemma carve_block_no_mapped total r st st' :
  no_mapped_linked st -> carve_block total st = Done (r, st') ->
  no_mapped_linked st'.
Proof.
  unfold no_mapped_linked, carve_block. intros HJ H. minv_all. simpl in *.
  set (hb := mk_header _ false false 0 MAGIC) in *.
  set (block := heap_start st) in *.
  match goal with H : append_block_to_free_list block ?s = Done _ |- _ =>
    assert (G : no_mapped_linked s /\ arena_at (mem s) block) end.
  { assert (H1 : arena_from (<[block := hb]> (mem st)) (free_list st)).
    { apply arena_from_insert; [assumption|]. intros _ _.
      split; [reflexivity|apply arena_from_null]. }
    assert (A1 : arena_at (<[block := hb]> (mem st)) block).
    { exists hb. split; [apply lookup_insert_eq|reflexivity]. }
    destruct (HEADER_SIZE <? _); minv_all; simpl in *; [|auto].
    set (hr := mk_header _ true false 0 MAGIC) in *.
    split.
    - eapply append_no_mapped; [| |eassumption].
      + unfold no_mapped_linked. simpl.
        apply arena_from_insert; [assumption|]. intros _ _.
        split; [reflexivity|apply arena_from_null].
      + simpl. exists hr. split; [apply lookup_insert_eq|reflexivity].
    - eapply append_arena_at; [eassumption|]. simpl.
      apply arena_at_insert; [reflexivity|assumption]. }
  destruct G as [G1 G2].
  eapply append_no_mapped; eauto.
Qed.

Lemma merge_with_next_no_mapped block u st st' :
  no_mapped_linked st -> merge_with_next_block block st = Done (u, st') ->
  no_mapped_linked st'.
Proof.
  unfold no_mapped_linked, merge_with_next_block. intros HJ H. minv_all.
  destruct (next v =? 0) eqn:Hn; minv_all; [assumption|].
  apply Z.eqb_neq in Hn.
  destruct (is_free v0); minv_all; simpl in *; [|assumption].
  rewrite lookup_insert_eq in *. simplify_eq. simpl in *.
  set (hb := with_size _ v) in *.
  set (m1 := <[block := hb]> (mem st)) in *.
  assert (Lb : m1 !! block = Some hb) by apply lookup_insert_eq.
  assert (H1 : arena_from m1 (free_list st))
    by (eapply arena_from_insert_keep; eauto).
  apply arena_from_insert; [assumption|]. intros Hb Hr.
  pose proof (arena_from_reach _ _ _ H1 Hr) as Hblock.
  destruct (Hblock block Hb (reach_refl _ _)) as (hb' & Lb' & Hk).
  simplify_eq. split; [exact Hk|]. simpl.
  eapply arena_from_next; [eapply (arena_from_next _ _ hb); eauto| |eassumption].
  exact Hn.
Qed.

Lemma merge_with_prev_no_mapped block r st st' :
  no_mapped_linked st -> block <> 0 ->
  merge_with_prev_block block st = Done (r, st') ->
  no_mapped_linked st'.
Proof.
  unfold no_mapped_linked, merge_with_prev_block, find_prev_block.
  intros HJ Hb H. minv_all.
  destruct (v =? 0) eqn:Hv; minv_all; [assumption|].
  apply Z.eqb_neq in Hv.
  destruct (is_free v0); minv_all; simpl in *; [|assumption].
  match goal with H : find_prev_loop _ _ _ _ = _ |- _ =>
    apply find_prev_loop_reach in H as [Hr (hp & Lp & Hnp)]; [|assumption] end.
  rewrite lookup_insert_eq in *. simplify_eq. simpl in *.
  set (hp' := with_size _ hp) in *.
  set (m1 := <[v := hp']> (mem st)) in *.
  assert (Lp' : m1 !! v = Some hp') by apply lookup_insert_eq.
  assert (H1 : arena_from m1 (free_list st))
    by (eapply arena_from_insert_keep; eauto).
  apply arena_from_insert; [assumption|]. intros _ Hr1.
  pose proof (arena_from_reach _ _ _ H1 Hr1) as Hprev.
  destruct (Hprev v Hv (reach_refl _ _)) as (hb' & Lb' & Hk).
  simplify_eq. split; [exact Hk|]. simpl.
  eapply arena_from_next; [eapply (arena_from_next _ _ hp'); eauto| |eassumption].
  exact Hb.
Qed.

Lemma my_free_no_mapped ok ptr evs st st' :
  no_mapped_linked st -> mem st !! 0 = None ->
  my_free ok ptr st = Done (evs, st') -> no_mapped_linked st'.
Proof.
  unfold my_free, merge_adjacent_free_blocks. intros HJ H0 H.
  destruct (ptr =? 0); [minv_all; auto|]. minv_all.
  assert (Hb : ptr - HEADER_SIZE <> 0) by congruence.
  destruct (negb (magic v =? MAGIC)); [minv_all; auto|].
  destruct (is_mmap v) eqn:Hk.
  - destruct ok; minv_all; [|assumption].
    unfold no_mapped_linked. simpl. eapply arena_from_delete; eauto.
  - minv_all.
    eapply merge_with_prev_no_mapped; [|exact Hb|eassumption].
    eapply merge_with_next_no_mapped; [|eassumption].
    unfold no_mapped_linked in *. simpl in *.
    eapply arena_from_insert_keep; [eassumption|reflexivity|reflexivity|].
    eapply arena_from_insert_keep; [eassumption|reflexivity|reflexivity|].
    assumption.
Qed.

Lemma request_new_heap_block_no_mapped p os sz r st st' :
  no_mapped_linked st ->
  request_new_heap_block p os sz st = Done (r, st') ->
  no_mapped_linked st'.
Proof.
  unfold request_new_heap_block. intros HJ H. minv_all.
  destruct (_ || _).
  - destruct os; minv_all; [|assumption].
    eapply carve_block_no_mapped; [|eassumption]. exact HJ.
  - minv_all. eapply carve_block_no_mapped; eauto.
Qed.

Lemma my_malloc_no_mapped p os sz r st st' :
  no_mapped_linked st -> os_ok p st os ->
  my_malloc p os sz st = Done (r, st') -> no_mapped_linked st'.
Proof.
  unfold my_malloc. intros HJ Hos H.
  destruct (sz =? 0); [minv_all; auto|].
  destruct (MMAP_THRESHOLD <=? align_size sz).
  - unfold request_new_mmap_block in H. minv_all.
    destruct os as [a|]; minv_all.
    + destruct Hos as (_ & _ & Hfresh).
      assert (G : no_mapped_linked
                    (with_mem (<[a := mk_header
                       (wrap (align_to_page p (wrap (align_size sz + HEADER_SIZE))
                              - HEADER_SIZE)) false true 0 MAGIC]> (mem st)) st)).
      { unfold no_mapped_linked. simpl.
        apply arena_from_insert_fresh; [exact Hfresh|exact HJ]. }
      simpl in *. destruct (a =? 0); minv_all; exact G.
    + simpl in *. minv_all. assumption.
  - unfold find_free_block in H. minv_all.
    destruct (negb (v =? 0)) eqn:Hz.
    + apply negb_true_iff, Z.eqb_neq in Hz.
      match goal with H : find_free_loop _ _ _ _ = _ |- _ =>
        apply find_free_loop_reach in H; [|assumption] end.
      minv_all.
      match goal with H : split_block _ _ _ = _ |- _ =>
        apply split_block_no_mapped in H as [HJ' ->]; auto end.
      unfold no_mapped_linked in *. simpl in *.
      eapply arena_from_insert_keep; [eassumption|reflexivity|reflexivity|].
      eapply arena_from_insert_keep; [eassumption|reflexivity|reflexivity|].
      assumption.
    + minv_all.
      match goal with H : request_new_heap_block _ _ _ _ = _ |- _ =>
        apply request_new_heap_block_no_mapped in H; [|assumption] end.
      destruct (fst _ =? 0); minv_all; assumption.
Qed.

Lemma my_calloc_no_mapped p os nelem sz r st st' :
  no_mapped_linked st -> os_ok p st os ->
  my_calloc p os nelem sz st = Done (r, st') -> no_mapped_linked st'.
Proof.
  unfold my_calloc. intros HJ Hos H.
  destruct (negb (sz =? 0) && _); [minv_all; auto|].
  minv_all.
  match goal with H : my_malloc _ _ _ _ = _ |- _ =>
    eapply my_malloc_no_mapped in H; eauto end.
  destruct (negb _); minv_all; assumption.
Qed.

Lemma addresses_ok_null k st : addresses_ok k st -> mem st !! 0 = None.
Proof.
  intros (Hd & _). apply not_elem_of_dom. intros H0.
  apply Hd in H0. lia.
Qed.

Lemma reachable_positive p st : reachable p st -> addresses_ok 1 st.
Proof.
  apply reachable_addresses_ok; [lia|exists 16; reflexivity|apply Z.mod_1_r].
Qed.

Lemma reachable_no_mapped p st : reachable p st -> no_mapped_linked st.
Proof.
  intros H. induction H as [|st os sz [r e] st' Hr IH Hos Hm
                               |st os n sz [r e] st' Hr IH Hos Hc
                               |st ok ptr evs st' Hr IH Hf].
  - unfold no_mapped_linked. simpl. apply arena_from_null.
  - eapply my_malloc_no_mapped; eauto.
  - eapply my_calloc_no_mapped; eauto.
  - eapply my_free_no_mapped; eauto.
    eapply addresses_ok_null, reachable_positive; eauto.
Qed.

Lemma my_malloc_large p st os sz :
  sz <> 0 -> MMAP_THRESHOLD <= align_size sz ->
  let len := align_to_page p (wrap (align_size sz + HEADER_SIZE)) in
  my_malloc p os sz st =
    match os with
    | None => Done ((0, [EMmap len]), st)
    | Some a =>
        Done ((if a =? 0 then 0 else a + HEADER_SIZE, [EMmap len]),
              with_mem (<[a := mk_header (wrap (len - HEADER_SIZE))
                                   false true 0 MAGIC]> (mem st)) st)
    end.
Proof.
  intros Hsz Hth len.
  unfold my_malloc. apply Z.eqb_neq in Hsz. rewrite Hsz.
  apply Z.leb_le in Hth. rewrite Hth.
  unfold request_new_mmap_block. fold len.
  destruct os as [a|]; [|reflexivity].
  unfold bind, store, modify, ret. simpl.
  destruct (a =? 0); reflexivity.
Qed.



Lemma my_free_mapped ok ptr h st :
  ptr <> 0 -> mem st !! (ptr - HEADER_SIZE) = Some h ->
  magic h = MAGIC -> is_mmap h = true ->
  my_free ok ptr st =
    Done (EMunmap (ptr - HEADER_SIZE) (wrap (size h + HEADER_SIZE))
            :: (if ok then [] else [EMappingError]),
          if ok then with_mem (delete (ptr - HEADER_SIZE) (mem st)) st
          else st).
Proof.
  intros Hp L Hm Hk. unfold my_free. apply Z.eqb_neq in Hp. rewrite Hp.
  unfold bind, load. rewrite L, Hm, Z.eqb_refl, Hk. simpl.
  destruct ok; reflexivity.
Qed.

(** * The registry as a list *)

Lemma chain_nonzero m a l x : chain m a l -> x ∈ l -> x <> 0.
Proof.
  induction 1 as [|a h l Ha L _ IH]; intros Hx.
  - now apply not_elem_of_nil in Hx.
  - apply elem_of_cons in Hx as [->|Hx]; auto.
Qed.

Lemma chain_lookup m a l x : chain m a l -> x ∈ l -> is_Some (m !! x).
Proof.
  induction 1 as [|a h l Ha L _ IH]; intros Hx.
  - now apply not_elem_of_nil in Hx.
  - apply elem_of_cons in Hx as [->|Hx]; eauto.
Qed.

Lemma chain_functional m a l1 l2 : chain m a l1 -> chain m a l2 -> l1 = l2.
Proof.
  intros H. revert l2. induction H as [|a h l Ha L _ IH]; intros l2 H2.
  - inversion H2; [reflexivity|contradiction].
  - inversion H2; subst; [contradiction|].
    f_equal. apply IH. congruence.
Qed.

Lemma chain_suffix m a l1 x l2 :
  chain m a (l1 ++ x :: l2) -> chain m x (x :: l2).
Proof.
  revert a. induction l1 as [|y l1 IH]; simpl; intros a H.
  - inversion H; subst. eapply chain_cons; eauto.
  - inversion H; subst. eauto.
Qed.

Lemma chain_NoDup m a l : chain m a l -> NoDup l.
Proof.
  induction 1 as [|a h l Ha L Hc IH]; [constructor|].
  constructor; [|exact IH]. intros Hin.
  apply list_elem_of_split in Hin as (l1 & l2 & ->).
  pose proof (chain_suffix _ _ _ _ _ Hc) as Hs.
  assert (Hc' : chain m a (a :: l1 ++ a :: l2)) by (eapply chain_cons; eauto).
  pose proof (chain_functional _ _ _ _ Hs Hc') as Heq.
  apply (f_equal length) in Heq. simpl in Heq.
  rewrite length_app in Heq. simpl in Heq. lia.
Qed.

Lemma chain_length m a l : chain m a l -> (length l <= base.size m)%nat.
Proof.
  intros H. pose proof (chain_NoDup _ _ _ H) as Hnd.
  rewrite <- size_dom, <- (size_list_to_set (C := gset Z) l) by exact Hnd.
  apply subseteq_size. intros x Hx. apply elem_of_list_to_set in Hx.
  apply elem_of_dom. eapply chain_lookup; eauto.
Qed.

Lemma chain_fuel m a l : chain m a l -> (length l < walk_fuel m)%nat.
Proof.
  intros H. apply chain_length in H.
  rewrite walk_fuel_eq. lia.
Qed.

Lemma chain_insert_notin m a l x h' :
  chain m a l -> x ∉ l -> chain (<[x := h']> m) a l.
Proof.
  induction 1 as [|a h l Ha L _ IH]; intros Hx; [constructor|].
  apply not_elem_of_cons in Hx as [Hne Hx].
  eapply chain_cons; [assumption| |auto].
  rewrite lookup_insert_ne by congruence. exact L.
Qed.

Lemma chain_insert_keep m a l x h h' :
  m !! x = Some h -> next h' = next h -> chain m a l ->
  chain (<[x := h']> m) a l.
Proof.
  intros Lx Hn. induction 1 as [|a h0 l Ha L _ IH]; [constructor|].
  destruct (decide (a = x)) as [->|Hne].
  - eapply chain_cons; [assumption|apply lookup_insert_eq|].
    rewrite Hn. congruence.
  - eapply chain_cons; [assumption| |exact IH].
    rewrite lookup_insert_ne by congruence. exact L.
Qed.

Lemma chain_prefix_replace m m' a l1 x l2 l3 :
  chain m a (l1 ++ x :: l2) ->
  (forall y, y ∈ l1 -> m' !! y = m !! y) ->
  chain m' x l3 -> chain m' a (l1 ++ l3).
Proof.
  revert a. induction l1 as [|y l1 IH]; simpl; intros a H Hsame H3.
  - inversion H; subst. exact H3.
  - inversion H; subst. eapply chain_cons; [assumption| |].
    + rewrite Hsame by apply list_elem_of_here. eassumption.
    + apply IH; [assumption| |assumption].
      intros z Hz. apply Hsame. now apply list_elem_of_further.
Qed.

Lemma find_free_loop_chain fuel m sz a l :
  chain m a l -> (length l < fuel)%nat ->
  find_free_loop fuel m sz a = Done (first_fit m sz l).
Proof.
  intros H. revert fuel. induction H as [|a h l Ha L _ IH]; intros fuel Hf.
  - destruct fuel; [simpl in Hf; lia|]. reflexivity.
  - destruct fuel; [simpl in Hf; lia|]. simpl in *.
    apply Z.eqb_neq in Ha. rewrite Ha, L.
    destruct (is_free h && (sz <=? size h)); [reflexivity|].
    apply IH. lia.
Qed.

Lemma find_prev_loop_absent fuel m block a l :
  chain m a l -> block <> 0 -> block ∉ l -> (length l < fuel)%nat ->
  find_prev_loop fuel m block a = Done 0.
Proof.
  intros H. revert fuel. induction H as [|a h l Ha L Hc IH]; intros fuel Hb Hn Hf.
  - destruct fuel; [simpl in Hf; lia|]. reflexivity.
  - destruct fuel; [simpl in Hf; lia|]. simpl in *.
    apply not_elem_of_cons in Hn as [Hne Hn].
    pose proof Ha as Ha'. apply Z.eqb_neq in Ha'. rewrite Ha', L.
    assert (Hnext : next h <> block).
    { intros e. inversion Hc; subst; [congruence|].
      apply Hn. apply list_elem_of_here. }
    apply Z.eqb_neq in Hnext. rewrite Hnext. apply IH; auto. lia.
Qed.

Lemma chain_next_in m (h : block_header) l :
  chain m (next h) l -> next h <> 0 -> next h ∈ l.
Proof. inversion 1; subst; [congruence|]. intros _. apply list_elem_of_here. Qed.

Lemma find_prev_loop_head fuel m block l :
  chain m block (block :: l) -> (length (block :: l) < fuel)%nat ->
  find_prev_loop fuel m block block = Done 0.
Proof.
  intros H Hf. pose proof (chain_NoDup _ _ _ H) as Hnd.
  apply NoDup_cons in Hnd as [Hn _].
  inversion H as [|a0 h0 l0 Hb L Hc]; subst.
  destruct fuel; [simpl in Hf; lia|]. simpl in *.
  pose proof Hb as Hb'. apply Z.eqb_neq in Hb'. rewrite Hb', L.
  assert (Hnext : next h0 <> block).
  { intros e. apply Hn. rewrite <- e. eapply chain_next_in; eauto. congruence. }
  apply Z.eqb_neq in Hnext. rewrite Hnext.
  eapply find_prev_loop_absent; eauto. lia.
Qed.

Lemma find_prev_loop_mid fuel m a l1 q block l2 :
  chain m a (l1 ++ q :: block :: l2) ->
  (length (l1 ++ q :: block :: l2) < fuel)%nat ->
  find_prev_loop fuel m block a = Done q.
Proof.
  intros H. pose proof (chain_NoDup _ _ _ H) as Hnd.
  revert a fuel H Hnd. induction l1 as [|y l1 IH]; simpl; intros a fuel H Hnd Hf.
  - inversion H as [|a0 h0 l0 Hq L Hc]; subst.
    destruct fuel; [simpl in Hf; lia|]. simpl.
    apply Z.eqb_neq in Hq. rewrite Hq, L.
    inversion Hc; subst. rewrite Z.eqb_refl. reflexivity.
  - inversion H as [|a0 h0 l0 Hy L Hc]; subst.
    destruct fuel; [simpl in Hf; lia|]. simpl.
    pose proof Hy as Hy'. apply Z.eqb_neq in Hy'. rewrite Hy', L.
    apply NoDup_cons in Hnd as [Hn Hnd'].
    assert (Hb : block <> 0).
    { eapply chain_nonzero; [exact Hc|]. apply elem_of_app. right.
      apply list_elem_of_further, list_elem_of_here. }
    assert (Hnext : next h0 <> block).
    { intros e. rewrite e in Hc.
      destruct l1 as [|z l1]; simpl in *; inversion Hc; subst.
      - apply NoDup_cons in Hnd' as [Hq _]. apply Hq. apply list_elem_of_here.
      - apply NoDup_cons in Hnd' as [Hq _]. apply Hq.
        apply elem_of_app. right.
        apply list_elem_of_further, list_elem_of_here. }
    apply Z.eqb_neq in Hnext. rewrite Hnext. apply IH; auto. lia.
Qed.

(** * Running monadic code forwards *)

Lemma bind_done {A B} (c : M A) (k : A -> M B) st a st1 :
  c st = Done (a, st1) -> bind c k st = k a st1.
Proof. unfold bind. intros ->. reflexivity. Qed.

Lemma load_done a h st : mem st !! a = Some h -> load a st = Done (h, st).
Proof. unfold load. intros ->. reflexivity. Qed.

Lemma update_done a f h st :
  mem st !! a = Some h ->
  update a f st = Done (tt, with_mem (<[a := f h]> (mem st)) st).
Proof. intros L. unfold update, bind, load. rewrite L. reflexivity. Qed.

Lemma with_mem_id st : with_mem (mem st) st = st.
Proof. destruct st. reflexivity. Qed.

Lemma with_mem_twice m1 m2 st : with_mem m2 (with_mem m1 st) = with_mem m2 st.
Proof. reflexivity. Qed.

Lemma merge_with_next_registry st l1 b l2 h :
  chain (mem st) (free_list st) (l1 ++ b :: l2) ->
  mem st !! b = Some h ->
  let r := absorb_next (mem st) h l2 in
  merge_with_next_block b st = Done (tt, with_mem (<[b := fst r]> (mem st)) st)
  /\ chain (<[b := fst r]> (mem st)) (free_list st) (l1 ++ b :: snd r).
Proof.
  intros Hc L.
  pose proof (chain_NoDup _ _ _ Hc) as Hnd.
  pose proof (chain_suffix _ _ _ _ _ Hc) as Hs.
  inversion Hs as [|b0 h0 l0 Hb L0 Hc2]; subst. rewrite L in L0.
  inversion L0; subst h0. clear L0.
  unfold merge_with_next_block.
  rewrite (bind_done _ _ _ _ _ (load_done _ _ _ L)).
  assert (Hsame : chain (<[b := h]> (mem st)) (free_list st) (l1 ++ b :: l2)
                  /\ with_mem (<[b := h]> (mem st)) st = st).
  { rewrite insert_id by exact L. split; [exact Hc|apply with_mem_id]. }
  inversion Hc2 as [Hn0 Hl2|n hn rest Hn Ln Hc3 Hn0]; subst.
  - (* no successor *)
    simpl. destruct Hsame as [H1 ->]. auto.
  - unfold absorb_next. rewrite Ln.
    pose proof Hn as Hn'. apply Z.eqb_neq in Hn'. rewrite Hn'.
    rewrite (bind_done _ _ _ _ _ (load_done _ _ _ Ln)).
    destruct (is_free hn) eqn:Hfree; cbn [fst snd].
    + assert (Hne : next h <> b).
      { intros e. apply NoDup_app in Hnd as (_ & _ & Hnd).
        apply NoDup_cons in Hnd as [Hx _]. apply Hx. rewrite <- e at 1.
        apply list_elem_of_here. }
      rewrite (bind_done _ _ _ _ _ (update_done _ _ _ _ L)).
      set (h1 := with_size _ h).
      assert (L1 : mem (with_mem (<[b := h1]> (mem st)) st) !! b = Some h1)
        by apply lookup_insert_eq.
      rewrite (bind_done _ _ _ _ _ (load_done _ _ _ L1)).
      assert (L2 : mem (with_mem (<[b := h1]> (mem st)) st) !! next h1
                   = Some hn).
      { simpl. rewrite lookup_insert_ne by congruence. exact Ln. }
      rewrite (bind_done _ _ _ _ _ (load_done _ _ _ L2)).
      rewrite (update_done _ _ _ _ L1). cbn [mem with_mem].
      rewrite insert_insert_eq. split; [reflexivity|].
      assert (Hrest : b ∉ rest).
      { apply NoDup_app in Hnd as (_ & _ & Hnd).
        apply NoDup_cons in Hnd as [Hx _]. intros Hin. apply Hx.
        now apply list_elem_of_further. }
      eapply chain_prefix_replace; [exact Hc| |].
      * intros y Hy. apply lookup_insert_ne. intros ->.
        apply NoDup_app in Hnd as (_ & Hd & _). apply (Hd _ Hy).
        apply list_elem_of_here.
      * eapply chain_cons; [exact Hb|apply lookup_insert_eq|]. simpl.
        apply chain_insert_notin; assumption.
    + destruct Hsame as [H1 ->]. auto.
Qed.

Lemma merge_with_prev_registry st l1 b l2 hb :
  chain (mem st) (free_list st) (l1 ++ b :: l2) ->
  mem st !! b = Some hb ->
  let r := absorb_into_prev (mem st) l1 b hb l2 in
  (exists res, merge_with_prev_block b st = Done (res, with_mem (fst r) st))
  /\ chain (fst r) (free_list st) (snd r).
Proof.
  intros Hc L.
  pose proof (chain_NoDup _ _ _ Hc) as Hnd.
  pose proof (chain_fuel _ _ _ Hc) as Hfuel.
  pose proof (chain_suffix _ _ _ _ _ Hc) as Hs.
  unfold merge_with_prev_block, find_prev_block, absorb_into_prev.
  destruct l1 as [|y l1' _] using rev_ind.
  - (* the block heads the registry *)
    simpl in *. inversion Hc; subst.
    unfold bind, lift. rewrite (find_prev_loop_head _ _ _ l2) by assumption.
    simpl. rewrite with_mem_id. eauto.
  - rename y into q. rewrite last_snoc.
    rewrite <- app_assoc in Hc, Hfuel, Hnd. simpl in Hc, Hfuel, Hnd.
    assert (Hq : q <> 0).
    { eapply chain_nonzero; [exact Hc|]. apply elem_of_app. right.
      apply list_elem_of_here. }
    destruct (chain_lookup _ _ _ q Hc) as [hq Lq].
    { apply elem_of_app. right. apply list_elem_of_here. }
    rewrite Lq.
    unfold bind at 1. unfold lift.
    rewrite (find_prev_loop_mid _ _ _ l1' q b l2) by assumption.
    apply Z.eqb_neq in Hq. rewrite Hq.
    rewrite (bind_done _ _ _ _ _ (load_done _ _ _ Lq)).
    destruct (is_free hq) eqn:Hfree; cbn [fst snd].
    + assert (Hqb : q <> b).
      { intros ->. apply NoDup_app in Hnd as (_ & _ & Hnd).
        apply NoDup_cons in Hnd as [Hx _]. apply Hx. apply list_elem_of_here. }
      rewrite (bind_done _ _ _ _ _ (load_done _ _ _ L)).
      rewrite (bind_done _ _ _ _ _ (update_done _ _ _ _ Lq)).
      set (hq1 := with_size _ hq).
      assert (L1 : mem (with_mem (<[q := hq1]> (mem st)) st) !! b = Some hb).
      { simpl. rewrite lookup_insert_ne by congruence. exact L. }
      rewrite (bind_done _ _ _ _ _ (load_done _ _ _ L1)).
      assert (L2 : mem (with_mem (<[q := hq1]> (mem st)) st) !! q = Some hq1)
        by apply lookup_insert_eq.
      rewrite (bind_done _ _ _ _ _ (update_done _ _ _ _ L2)).
      cbn [mem with_mem]. rewrite insert_insert_eq.
      split; [eexists; reflexivity|].
      rewrite <- app_assoc. simpl.
      assert (Hl2 : q ∉ l2).
      { apply NoDup_app in Hnd as (_ & _ & Hnd).
        apply NoDup_cons in Hnd as [Hx _]. intros Hin. apply Hx.
        now apply list_elem_of_further. }
      eapply chain_prefix_replace; [exact Hc| |].
      * intros z Hz. apply lookup_insert_ne. intros ->.
        apply NoDup_app in Hnd as (_ & Hd & _). apply (Hd _ Hz).
        apply list_elem_of_here.
      * apply Z.eqb_neq in Hq.
        eapply chain_cons; [exact Hq|apply lookup_insert_eq|]. simpl.
        apply chain_insert_notin; [|assumption].
        inversion Hs; subst. congruence.
    + unfold ret. rewrite with_mem_id. split; [eauto|].
      rewrite <- app_assoc. exact Hc.
Qed.

Lemma absorb_next_insert m b x h l2 :
  b ∉ l2 -> absorb_next (<[b := x]> m) h l2 = absorb_next m h l2.
Proof.
  intros Hb. destruct l2 as [|n rest]; [reflexivity|]. simpl.
  apply not_elem_of_cons in Hb as [Hne _].
  rewrite lookup_insert_ne by congruence. reflexivity.
Qed.

Lemma my_free_registry st ok ptr l1 l2 h :
  ptr <> 0 ->
  chain (mem st) (free_list st) (l1 ++ (ptr - HEADER_SIZE) :: l2) ->
  mem st !! (ptr - HEADER_SIZE) = Some h ->
  magic h = MAGIC -> is_mmap h = false ->
  let r := coalesce (mem st) l1 (ptr - HEADER_SIZE) h l2 in
  my_free ok ptr st = Done ([], with_mem (fst r) st)
  /\ chain (fst r) (free_list st) (snd r).
Proof.
  intros Hp Hc L Hm Hk. set (b := ptr - HEADER_SIZE) in *.
  pose proof (chain_NoDup _ _ _ Hc) as Hnd.
  assert (Hl2 : b ∉ l2).
  { apply NoDup_app in Hnd as (_ & _ & Hnd).
    now apply NoDup_cons in Hnd as [Hx _]. }
  unfold my_free, merge_adjacent_free_blocks. fold b.
  apply Z.eqb_neq in Hp. rewrite Hp.
  rewrite (bind_done _ _ _ _ _ (load_done _ _ _ L)).
  rewrite Hm, Z.eqb_refl, Hk. cbn [negb].
  rewrite (bind_done _ _ _ _ _ (update_done _ _ _ _ L)).
  set (st1 := with_mem _ st).
  assert (L1 : mem st1 !! b = Some (with_is_free true h))
    by apply lookup_insert_eq.
  rewrite (bind_done _ _ _ _ _ (update_done _ _ _ _ L1)).
  subst st1. cbn [mem with_mem]. rewrite insert_insert_eq.
  fold (released h). rewrite with_mem_twice.
  set (st2 := with_mem (<[b := released h]> (mem st)) st).
  assert (L2 : mem st2 !! b = Some (released h)) by apply lookup_insert_eq.
  assert (Hc2 : chain (mem st2) (free_list st2) (l1 ++ b :: l2)).
  { eapply chain_insert_keep; eauto. }
  destruct (merge_with_next_registry st2 l1 b l2 _ Hc2 L2) as [E3 Hc3].
  unfold st2 in E3, Hc3. cbn [mem with_mem free_list] in E3, Hc3.
  rewrite absorb_next_insert in E3, Hc3 by exact Hl2.
  rewrite insert_insert_eq in E3, Hc3. rewrite with_mem_twice in E3.
  fold st2 in E3.
  set (r1 := absorb_next (mem st) (released h) l2) in *.
  set (st3 := with_mem (<[b := fst r1]> (mem st)) st) in *.
  assert (L3 : mem st3 !! b = Some (fst r1)) by apply lookup_insert_eq.
  destruct (merge_with_prev_registry st3 l1 b (snd r1) _ Hc3 L3)
    as [[res E4] Hc4].
  unfold st3 in E4, Hc4. cbn [mem with_mem free_list] in E4, Hc4.
  rewrite with_mem_twice in E4. fold st3 in E4.
  unfold bind at 1.
  rewrite (bind_done _ _ _ _ _ E3), E4.
  unfold coalesce. fold r1. split; [reflexivity|exact Hc4].
Qed.

(** * Reusing a free block *)

Lemma bind_assoc {A B C} (c : M A) (k1 : A -> M B) (k2 : B -> M C) st :
  bind (bind c k1) k2 st = bind c (fun a => bind (k1 a) k2) st.
Proof. unfold bind. destruct (c st) as [[a st1]| |]; reflexivity. Qed.

Lemma bind_ret_l {A B} (a : A) (k : A -> M B) st : bind (ret a) k st = k a st.
Proof. reflexivity. Qed.

Lemma bind_store {B} a h (k : unit -> M B) st :
  bind (store a h) k st = k tt (with_mem (<[a := h]> (mem st)) st).
Proof. reflexivity. Qed.

Lemma my_malloc_reuse p os sz st b h :
  sz <> 0 -> align_size sz < MMAP_THRESHOLD ->
  find_free_block (align_size sz) st = Done (b, st) -> b <> 0 ->
  mem st !! b = Some h ->
  let a := align_size sz in
  let nb := b + HEADER_SIZE + a in
  my_malloc p os sz st =
    Done ((b + HEADER_SIZE, []),
          with_mem
            (if wrap (a + (HEADER_SIZE + ALIGNMENT)) <=? size h then
               <[b := mk_header a false (is_mmap h) nb MAGIC]>
                 (<[nb := mk_header (wrap (size h - a - HEADER_SIZE))
                            true false (next h) MAGIC]> (mem st))
             else <[b := mk_header (size h) false (is_mmap h) (next h) MAGIC]>
                    (mem st))
            st).
Proof.
  intros Hsz Hth Hfind Hb L a nb.
  pose proof (align_size_range sz) as Ha. fold a in Ha, Hth, Hfind.
  unfold my_malloc. fold a.
  apply Z.eqb_neq in Hsz. rewrite Hsz.
  assert (Hth' : (MMAP_THRESHOLD <=? a) = false) by (apply Z.leb_gt; lia).
  rewrite Hth'. rewrite (bind_done _ _ _ _ _ Hfind).
  pose proof Hb as Hb'. apply Z.eqb_neq in Hb'. rewrite Hb'. cbn [negb].
  unfold split_block.
  assert (Hnb : nb <> b) by (unfold nb, HEADER_SIZE; lia).
  rewrite bind_assoc, (bind_done _ _ _ _ _ (load_done _ _ _ L)), bind_assoc.
  destruct (wrap (a + (HEADER_SIZE + ALIGNMENT)) <=? size h).
  - fold nb. rewrite bind_assoc, bind_store.
    set (hn := mk_header _ true false (next h) MAGIC).
    set (st1 := with_mem (<[nb := hn]> (mem st)) st).
    assert (L1 : mem st1 !! b = Some h).
    { unfold st1. simpl. rewrite lookup_insert_ne by congruence. exact L. }
    rewrite bind_assoc, (bind_done _ _ _ _ _ (update_done _ _ _ _ L1)).
    set (st2 := with_mem _ st1).
    assert (L2 : mem st2 !! b = Some (with_size a h))
      by apply lookup_insert_eq.
    rewrite (bind_done _ _ _ _ _ (update_done _ _ _ _ L2)), bind_ret_l.
    set (st3 := with_mem _ st2).
    assert (L3 : mem st3 !! b = Some (with_next nb (with_size a h)))
      by apply lookup_insert_eq.
    rewrite (bind_done _ _ _ _ _ (update_done _ _ _ _ L3)).
    set (st4 := with_mem _ st3).
    assert (L4 : mem st4 !! b
                 = Some (with_is_free false (with_next nb (with_size a h))))
      by apply lookup_insert_eq.
    rewrite (bind_done _ _ _ _ _ (update_done _ _ _ _ L4)).
    unfold ret, st4, st3, st2, st1. cbn [mem with_mem].
    rewrite !insert_insert_eq. reflexivity.
  - rewrite !bind_ret_l.
    rewrite (bind_done _ _ _ _ _ (update_done _ _ _ _ L)).
    set (st1 := with_mem _ st).
    assert (L1 : mem st1 !! b = Some (with_is_free false h))
      by apply lookup_insert_eq.
    rewrite (bind_done _ _ _ _ _ (update_done _ _ _ _ L1)).
    unfold ret, st1. cbn [mem with_mem].
    rewrite !insert_insert_eq. reflexivity.
Qed.


(** * A released block can be handed out again *)

Ltac pow_lia :=
  unfold HEADER_SIZE, ALIGNMENT, MMAP_THRESHOLD in *;
  change (2 ^ 60) with 1152921504606846976 in *;
  change (2 ^ 62) with 4611686018427387904 in *;
  change (2 ^ 63) with 9223372036854775808 in *;
  change (2 ^ 64) with 18446744073709551616 in *;
  lia.

Lemma first_fit_found m sz a l c hc :
  chain m a l -> c ∈ l -> m !! c = Some hc ->
  is_free hc = true -> sz <= size hc ->
  exists hf, first_fit m sz l ∈ l /\ m !! first_fit m sz l = Some hf /\
             is_free hf = true /\ sz <= size hf.
Proof.
  intros H. revert c hc. induction H as [|a h l Ha L Hc IH];
    intros c hc Hin Lc Hfree Hsz.
  - now apply not_elem_of_nil in Hin.
  - simpl. rewrite L.
    destruct (is_free h && (sz <=? size h)) eqn:Hfit.
    + apply andb_true_iff in Hfit as [Hf Hs]. apply Z.leb_le in Hs.
      exists h. split; [apply list_elem_of_here|]. rewrite L. auto.
    + apply elem_of_cons in Hin as [->|Hin].
      * rewrite L in Lc. inversion Lc; subst hc.
        apply Z.leb_le in Hsz. rewrite Hfree, Hsz in Hfit. discriminate.
      * destruct (IH c hc Hin Lc Hfree Hsz) as (hf & H1 & H2 & H3 & H4).
        exists hf. split; [now apply list_elem_of_further|auto].
Qed.




(** * The scenario, evaluated *)

Lemma scenario1_run :
  my_malloc scenario_page (Some scenario_arena) 32 initial_state =
    Done ((scenario_arena + HEADER_SIZE, [EMmap HEAP_EXPANSION_SIZE]), scenario1).
Proof. vm_compute. reflexivity. Qed.

Lemma scenario1_chain :
  chain (mem scenario1) (free_list scenario1)
    [scenario_arena + 4096; scenario_arena].
Proof.
  repeat (eapply chain_cons; [vm_compute; discriminate|vm_compute; reflexivity|]).
  apply chain_nil.
Qed.

Lemma scenario3_chain :
  chain (mem scenario3) (free_list scenario3)
    [scenario_arena + 4096; scenario_arena + 4192; scenario_arena + 4352;
     scenario_arena].
Proof.
  repeat (eapply chain_cons; [vm_compute; discriminate|vm_compute; reflexivity|]).
  apply chain_nil.
Qed.

Lemma scenario1_reachable : reachable scenario_page scenario1.
Proof.
  eapply reachable_malloc; [apply reachable_init| |apply scenario1_run].
  vm_compute. auto.
Qed.

Lemma large1_run :
  my_malloc scenario_page (Some large_mapping) 8192 scenario1 =
    Done ((large_mapping + HEADER_SIZE, [EMmap 12288]), large1).
Proof. vm_compute. reflexivity. Qed.

Lemma large1_reachable : reachable scenario_page large1.
Proof.
  eapply reachable_malloc; [apply scenario1_reachable| |apply large1_run].
  vm_compute. auto.
Qed.

(** * The scenario for an arena at any address *)

Lemma bind_get {A B} (f : state -> A) (k : A -> M B) st :
  bind (get f) k st = k (f st) st.
Proof. reflexivity. Qed.

Lemma bind_modify {B} f (k : unit -> M B) st :
  bind (modify f) k st = k tt (f st).
Proof. reflexivity. Qed.

Lemma bind_update {B} a f h (k : unit -> M B) st :
  mem st !! a = Some h ->
  bind (update a f) k st = k tt (with_mem (<[a := f h]> (mem st)) st).
Proof. intros L. apply bind_done, update_done, L. Qed.

Lemma find_free_block_chain sz st l :
  chain (mem st) (free_list st) l ->
  find_free_block sz st = Done (first_fit (mem st) sz l, st).
Proof.
  intros Hc. unfold find_free_block, lift.
  rewrite (find_free_loop_chain _ _ _ _ _ Hc (chain_fuel _ _ _ Hc)).
  reflexivity.
Qed.

Lemma last_block_chain fuel m a l x :
  chain m a (l ++ [x]) -> (length (l ++ [x]) < fuel)%nat ->
  last_block fuel m a = Done x.
Proof.
  revert a fuel. induction l as [|y l IH]; simpl; intros a fuel H Hf.
  - inversion H as [|a0 h0 l0 Ha L Hc]; subst.
    destruct fuel; [simpl in Hf; lia|]. simpl. rewrite L.
    inversion Hc. rewrite Z.eqb_refl. reflexivity.
  - inversion H as [|a0 h0 l0 Ha L Hc]; subst.
    destruct fuel; [simpl in Hf; lia|]. simpl. rewrite L.
    assert (Hn : next h0 <> 0).
    { destruct l; simpl in Hc; inversion Hc; subst; assumption. }
    apply Z.eqb_neq in Hn. rewrite Hn. apply IH; [assumption|lia].
Qed.

Ltac lookup_tac :=
  cbn [mem with_mem with_heap_start with_heap_end with_free_list];
  repeat first [ apply lookup_insert_eq
               | rewrite lookup_insert_ne by lia ];
  try eassumption.

Ltac state_tac :=
  cbn [mem heap_start heap_end free_list payload with_mem with_heap_start
       with_heap_end with_free_list with_payload initial_state].

Lemma first_carve base :
  0 < base ->
  exists s1,
    my_malloc scenario_page (Some base) 32 initial_state =
      Done ((base + HEADER_SIZE, [EMmap HEAP_EXPANSION_SIZE]), s1) /\
    free_list s1 = base + 4096 /\
    mem s1 !! (base + 4096) = Some (mk_header 12256 true false base MAGIC) /\
    mem s1 !! base = Some (mk_header 4064 false false 0 MAGIC).
Proof.
  intros Hb. eexists. split; [|split; [|split]].
  - unfold my_malloc.
    change (32 =? 0) with false. cbv iota.
    change (align_size 32) with 32.
    change (MMAP_THRESHOLD <=? 32) with false. cbv iota.
    assert (Hfind : find_free_block 32 initial_state = Done (0, initial_state)).
    { apply (find_free_block_chain 32 initial_state []). apply chain_nil. }
    rewrite (bind_done _ _ _ _ _ Hfind).
    change (negb (0 =? 0)) with false. cbv iota.
    unfold request_new_heap_block.
    change (align_to_page scenario_page (wrap (32 + HEADER_SIZE))) with 4096.
    rewrite bind_assoc, bind_get, bind_assoc, bind_get.
    change (heap_start initial_state =? 0) with true. cbn [orb].
    rewrite !bind_assoc, bind_modify. rewrite !bind_assoc, bind_modify.
    unfold carve_block.
    rewrite !bind_assoc, bind_get. rewrite !bind_assoc, bind_modify.
    rewrite !bind_assoc, bind_store.
    rewrite !bind_assoc, bind_get. rewrite !bind_assoc, bind_get.
    state_tac. unfold HEAP_EXPANSION_SIZE.
    replace (base + 16 * 1024 - (base + 4096)) with 12288 by lia.
    change (HEADER_SIZE <? wrap 12288) with true. cbv iota.
    change (wrap (12288 - HEADER_SIZE)) with 12256.
    change (wrap (4096 - HEADER_SIZE)) with 4064.
    rewrite !bind_assoc, bind_store. rewrite !bind_assoc, bind_modify.
    state_tac.
    unfold append_block_to_free_list at 1.
    rewrite !bind_assoc. erewrite bind_update by lookup_tac.
    rewrite !bind_assoc, bind_get. state_tac.
    change (0 =? 0) with true. cbv iota. rewrite bind_modify. state_tac.
    unfold append_block_to_free_list.
    rewrite !bind_assoc. erewrite bind_update by lookup_tac.
    rewrite !bind_assoc, bind_get. state_tac.
    assert (Hz : (base + 4096 =? 0) = false) by (apply Z.eqb_neq; lia).
    rewrite Hz. rewrite !bind_assoc.
    match goal with |- bind (lift ?f) ?k ?s = _ =>
      assert (Hl : lift f s = Done (base + 4096, s)) end.
    { unfold lift.
      erewrite (last_block_chain _ _ _ [] (base + 4096)); [reflexivity| |].
      - eapply chain_cons; [lia|lookup_tac|apply chain_nil].
      - apply (chain_fuel _ (base + 4096) [base + 4096]).
        eapply chain_cons; [lia|lookup_tac|apply chain_nil]. }
    rewrite (bind_done _ _ _ _ _ Hl).
    erewrite bind_update by lookup_tac.
    rewrite !bind_ret_l. cbn [fst snd].
    assert (Hz' : (base =? 0) = false) by (apply Z.eqb_neq; lia).
    rewrite Hz'. state_tac. reflexivity.
  - reflexivity.
  - lookup_tac.
  - lookup_tac.
Qed.

(** * Mapped headers keep the size of their mapping *)

Section MappedSizes.

Variable p : Z.















End MappedSizes.

(** * The properties of the specification *)

(** C1, evaluated on the first allocation of a fresh allocator: the carve
    creates the block at the arena base and the remainder 4096 bytes
    above it, and links the remainder first.  Releasing the block then
    makes the remainder, which lies above it in memory, absorb it: the
    free block that results ends 4096 bytes beyond the end of the arena. *)
Theorem carve_links_remainder_before_block :
  my_malloc scenario_page (Some scenario_arena) 32 initial_state =
    Done ((scenario_arena + HEADER_SIZE, [EMmap HEAP_EXPANSION_SIZE]),
          scenario1) /\
  mem scenario1 !! scenario_arena =
    Some (mk_header 4064 false false 0 MAGIC) /\
  mem scenario1 !! (scenario_arena + 4096) =
    Some (mk_header 12256 true false scenario_arena MAGIC) /\
  chain (mem scenario1) (free_list scenario1)
    [scenario_arena + 4096; scenario_arena] /\
  exists st,
    my_free true (scenario_arena + HEADER_SIZE) scenario1 = Done ([], st) /\
    chain (mem st) (free_list st) [scenario_arena + 4096] /\
    mem st !! (scenario_arena + 4096) =
      Some (mk_header 16352 true false 0 MAGIC) /\
    heap_end st = scenario_arena + HEAP_EXPANSION_SIZE /\
    heap_end st + 4096 = scenario_arena + 4096 + HEADER_SIZE + 16352.
Proof.
  split; [apply scenario1_run|].
  split; [vm_compute; reflexivity|].
  split; [vm_compute; reflexivity|].
  split; [apply scenario1_chain|].
  eexists. split; [vm_compute; reflexivity|].
  split.
  - eapply chain_cons; [vm_compute; discriminate|vm_compute; reflexivity|].
    apply chain_nil.
  - split; [vm_compute; reflexivity|]. split; vm_compute; reflexivity.
Qed.




(** C3: with 4 KiB pages and the first arena mapped at any address
    [base], allocate 32, 64 and 128 bytes from a fresh allocator, release
    the 64-byte block, allocate 50 bytes: the last call returns the address
    of the 64-byte block and does not call [mmap], whatever the system
    would have answered. *)
Theorem released_block_is_reused_first_fit base os2 os3 os5 ok :
  0 < base ->
  exists s1 s2 s3 s4 s5,
    my_malloc scenario_page (Some base) 32 initial_state =
      Done ((base + HEADER_SIZE, [EMmap HEAP_EXPANSION_SIZE]), s1) /\
    my_malloc scenario_page os2 64 s1 =
      Done ((base + 4096 + HEADER_SIZE, []), s2) /\
    my_malloc scenario_page os3 128 s2 =
      Done ((base + 4192 + HEADER_SIZE, []), s3) /\
    my_free ok (base + 4096 + HEADER_SIZE) s3 = Done ([], s4) /\
    my_malloc scenario_page os5 50 s4 =
      Done ((base + 4096 + HEADER_SIZE, []), s5).
Proof.
  intros Hb.
  destruct (first_carve base Hb) as (s1 & E1 & F1 & LR & LB).
  (* the 64-byte request splits the remainder *)
  set (R := mk_header 12256 true false base MAGIC) in *.
  set (B := mk_header 4064 false false 0 MAGIC) in *.
  assert (C1 : chain (mem s1) (free_list s1) [base + 4096; base]).
  { rewrite F1. eapply chain_cons; [lia|exact LR|].
    eapply chain_cons; [lia|exact LB|]. apply chain_nil. }
  pose proof (find_free_block_chain 64 s1 _ C1) as Q1.
  cbn [first_fit] in Q1. rewrite LR in Q1. cbn in Q1.
  assert (E2 := my_malloc_reuse scenario_page os2 64 s1 (base + 4096) R
                  ltac:(discriminate) ltac:(reflexivity) Q1 ltac:(lia) LR).
  cbv zeta in E2. change (align_size 64) with 64 in E2.
  change (wrap (64 + (HEADER_SIZE + ALIGNMENT)) <=? size R) with true in E2.
  cbv iota in E2. cbn [size is_mmap next R] in E2.
  change (wrap (12256 - 64 - HEADER_SIZE)) with 12160 in E2.
  replace (base + 4096 + HEADER_SIZE + 64) with (base + 4192) in E2
    by (unfold HEADER_SIZE; lia).
  set (A1 := mk_header 64 false false (base + 4192) MAGIC) in *.
  set (N1 := mk_header 12160 true false base MAGIC) in *.
  set (s2 := with_mem (<[base + 4096 := A1]> (<[base + 4192 := N1]> (mem s1)))
               s1) in *.
  assert (L2a : mem s2 !! (base + 4096) = Some A1) by (unfold s2; lookup_tac).
  assert (L2n : mem s2 !! (base + 4192) = Some N1) by (unfold s2; lookup_tac).
  assert (L2b : mem s2 !! base = Some B) by (unfold s2; lookup_tac).
  assert (C2 : chain (mem s2) (free_list s2) [base + 4096; base + 4192; base]).
  { unfold s2 at 2. cbn [free_list with_mem]. rewrite F1.
    eapply chain_cons; [lia|exact L2a|].
    eapply chain_cons; [lia|exact L2n|].
    eapply chain_cons; [lia|exact L2b|]. apply chain_nil. }
  (* the 128-byte request splits what is left of it *)
  pose proof (find_free_block_chain 128 s2 _ C2) as Q2.
  cbn [first_fit] in Q2. rewrite L2a, L2n in Q2. cbn in Q2.
  assert (E3 := my_malloc_reuse scenario_page os3 128 s2 (base + 4192) N1
                  ltac:(discriminate) ltac:(reflexivity) Q2 ltac:(lia) L2n).
  cbv zeta in E3. change (align_size 128) with 128 in E3.
  change (wrap (128 + (HEADER_SIZE + ALIGNMENT)) <=? size N1) with true in E3.
  cbv iota in E3. cbn [size is_mmap next N1] in E3.
  change (wrap (12160 - 128 - HEADER_SIZE)) with 12000 in E3.
  replace (base + 4192 + HEADER_SIZE + 128) with (base + 4352) in E3
    by (unfold HEADER_SIZE; lia).
  set (A2 := mk_header 128 false false (base + 4352) MAGIC) in *.
  set (N2 := mk_header 12000 true false base MAGIC) in *.
  set (s3 := with_mem (<[base + 4192 := A2]> (<[base + 4352 := N2]> (mem s2)))
               s2) in *.
  assert (L3a : mem s3 !! (base + 4096) = Some A1) by (unfold s3; lookup_tac).
  assert (L3b : mem s3 !! (base + 4192) = Some A2) by (unfold s3; lookup_tac).
  assert (L3n : mem s3 !! (base + 4352) = Some N2) by (unfold s3; lookup_tac).
  assert (L3c : mem s3 !! base = Some B) by (unfold s3; lookup_tac).
  assert (C3 : chain (mem s3) (free_list s3)
                 ([] ++ (base + 4096 + HEADER_SIZE - HEADER_SIZE)
                     :: [base + 4192; base + 4352; base])).
  { replace (base + 4096 + HEADER_SIZE - HEADER_SIZE) with (base + 4096) by lia.
    unfold s3 at 2, s2 at 2. cbn [free_list with_mem app]. rewrite F1.
    eapply chain_cons; [lia|exact L3a|].
    eapply chain_cons; [lia|exact L3b|].
    eapply chain_cons; [lia|exact L3n|].
    eapply chain_cons; [lia|exact L3c|]. apply chain_nil. }
  (* the release finds allocated neighbours: nothing is merged *)
  assert (L3a' : mem s3 !! (base + 4096 + HEADER_SIZE - HEADER_SIZE) = Some A1).
  { replace (base + 4096 + HEADER_SIZE - HEADER_SIZE) with (base + 4096) by lia.
    exact L3a. }
  destruct (my_free_registry s3 ok (base + 4096 + HEADER_SIZE) [] _ A1
              ltac:(unfold HEADER_SIZE; lia) C3 L3a' eq_refl eq_refl)
    as [E4 C4].
  replace (base + 4096 + HEADER_SIZE - HEADER_SIZE) with (base + 4096)
    in E4, C4 by lia.
  unfold coalesce, absorb_next, absorb_into_prev in E4, C4.
  rewrite L3b in E4, C4. cbn in E4, C4.
  set (F := mk_header 64 true false (base + 4192) 0) in *.
  set (s4 := with_mem (<[base + 4096 := F]> (mem s3)) s3) in *.
  assert (L4 : mem s4 !! (base + 4096) = Some F) by (unfold s4; lookup_tac).
  (* the 50-byte request takes the released block, whole *)
  pose proof (find_free_block_chain 64 s4 _ C4) as Q4.
  cbn [first_fit] in Q4. rewrite L4 in Q4. cbn in Q4.
  assert (E5 := my_malloc_reuse scenario_page os5 50 s4 (base + 4096) F
                  ltac:(discriminate) ltac:(reflexivity) Q4 ltac:(lia) L4).
  cbv zeta in E5.
  exists s1, s2, s3, s4. eexists.
  split; [exact E1|]. split; [exact E2|]. split; [exact E3|].
  split; [exact E4|exact E5].
Qed.

Lemma released_block_is_reused_first_fit_witness :
  exists s1 s2 s3 s4 s5,
    my_malloc scenario_page (Some scenario_arena) 32 initial_state =
      Done ((scenario_arena + HEADER_SIZE, [EMmap HEAP_EXPANSION_SIZE]), s1) /\
    my_malloc scenario_page None 64 s1 =
      Done ((scenario_arena + 4096 + HEADER_SIZE, []), s2) /\
    my_malloc scenario_page None 128 s2 =
      Done ((scenario_arena + 4192 + HEADER_SIZE, []), s3) /\
    my_free true (scenario_arena + 4096 + HEADER_SIZE) s3 = Done ([], s4) /\
    my_malloc scenario_page None 50 s4 =
      Done ((scenario_arena + 4096 + HEADER_SIZE, []), s5).
Proof.
  apply (released_block_is_reused_first_fit scenario_arena None None None true).
  reflexivity.
Defined.












(** C9: [my_malloc 0] returns the null pointer, calls nothing and leaves
    the whole allocator state as it was. *)
Theorem malloc_zero_is_noop p os st :
  my_malloc p os 0 st = Done ((0, []), st).
Proof. reflexivity. Qed.

(** C10: every non-null pointer returned by [my_malloc] or [my_calloc] in a
    reachable state is a multiple of 16, when pages are a multiple of 16
    bytes and the system hands out page-aligned mappings. *)
Theorem returned_pointers_aligned p st os nelem sz :
  p mod 16 = 0 -> reachable p st -> os_ok p st os ->
  (forall ptr evs st',
      my_malloc p os sz st = Done ((ptr, evs), st') ->
      ptr <> 0 -> ptr mod ALIGNMENT = 0) /\
  (forall ptr evs st',
      my_calloc p os nelem sz st = Done ((ptr, evs), st') ->
      ptr <> 0 -> ptr mod ALIGNMENT = 0).
Proof.
  intros Hp Hr Hos.
  assert (Hpos : 0 < 16) by lia.
  assert (Hdiv : (16 | 16)) by apply Z.divide_refl.
  pose proof (reachable_addresses_ok 16 Hpos Hdiv _ _ Hp Hr) as Hok.
  split; intros ptr evs st' H Hne.
  - apply (my_malloc_addresses_ok 16 Hpos Hdiv) in H as [[?|?] _]; auto.
    contradiction.
  - apply (my_calloc_addresses_ok 16 Hpos Hdiv) in H as [[?|?] _]; auto.
    contradiction.
Qed.

Lemma returned_pointers_aligned_witness :
  (scenario_arena + 4096 + HEADER_SIZE) mod ALIGNMENT = 0 /\
  (second_mapping + HEADER_SIZE) mod ALIGNMENT = 0.
Proof.
  split.
  - destruct (returned_pointers_aligned scenario_page scenario1 None 5 8)
      as [_ H]; [reflexivity|apply scenario1_reachable|exact I|].
    eapply (H _ [] _); [vm_compute; reflexivity|discriminate].
  - destruct (returned_pointers_aligned scenario_page large1
                (Some second_mapping) 1 8192)
      as [H _]; [reflexivity|apply large1_reachable|vm_compute; auto|].
    eapply (H _ [EMmap 12288] _); [vm_compute; reflexivity|discriminate].
Defined.

(** * Further properties of the allocator *)

(** ** The two size normalizers *)

Lemma align_size_round_up sz :
  0 <= sz -> sz + 15 < 2 ^ 64 ->
  align_size sz = 16 * ((sz + 15) / 16).
Proof.
  intros H0 H1. rewrite align_size_eq, wrap_small by lia. reflexivity.
Qed.

Lemma align_to_page_round_up p sz :
  0 < p -> 0 <= sz -> sz + p - 1 < 2 ^ 64 ->
  align_to_page p sz = (sz + p - 1) / p * p.
Proof.
  intros Hp H0 H1. unfold align_to_page.
  rewrite (wrap_small (sz + p - 1)) by lia.
  apply wrap_small.
  pose proof (Z.div_mod (sz + p - 1) p ltac:(lia)) as E.
  pose proof (Z.mod_pos_bound (sz + p - 1) p Hp) as B.
  split; [|nia].
  apply Z.mul_nonneg_nonneg; [apply Z.div_pos|]; lia.
Qed.

(** X1: for a size that does not wrap, [align_size] returns the least
    multiple of 16 that is not below the size: it never shrinks a request
    and adds fewer than 16 bytes. *)
Theorem align_size_least_multiple sz :
  0 <= sz -> sz + 15 < 2 ^ 64 ->
  align_size sz mod ALIGNMENT = 0 /\
  sz <= align_size sz < sz + ALIGNMENT /\
  (forall m, m mod ALIGNMENT = 0 -> sz <= m -> align_size sz <= m).
Proof.
  intros H0 H1. rewrite align_size_round_up by assumption.
  unfold ALIGNMENT.
  pose proof (Z.div_mod (sz + 15) 16 ltac:(lia)) as E.
  pose proof (Z.mod_pos_bound (sz + 15) 16 ltac:(lia)) as B.
  split; [|split].
  - rewrite Z.mul_comm. apply Z.mod_mul. lia.
  - lia.
  - intros m Hm Hle.
    pose proof (Z.div_mod m 16 ltac:(lia)) as Em. lia.
Qed.

Lemma align_size_least_multiple_witness :
  align_size 50 mod ALIGNMENT = 0 /\ 50 <= align_size 50 < 50 + ALIGNMENT /\
  align_size 50 <= 64.
Proof.
  destruct (align_size_least_multiple 50) as (H1 & H2 & H3).
  - lia.
  - reflexivity.
  - split; [exact H1|]. split; [exact H2|]. apply H3; [reflexivity|lia].
Defined.

(** X2: for a positive page size and a size that does not wrap,
    [align_to_page] returns the least multiple of the page size that is not
    below the size. *)
Theorem align_to_page_least_multiple p sz :
  0 < p -> 0 <= sz -> sz + p - 1 < 2 ^ 64 ->
  align_to_page p sz mod p = 0 /\
  sz <= align_to_page p sz < sz + p /\
  (forall m, m mod p = 0 -> sz <= m -> align_to_page p sz <= m).
Proof.
  intros Hp H0 H1. rewrite align_to_page_round_up by assumption.
  pose proof (Z.div_mod (sz + p - 1) p ltac:(lia)) as E.
  pose proof (Z.mod_pos_bound (sz + p - 1) p Hp) as B.
  split; [|split].
  - apply Z.mod_mul. lia.
  - nia.
  - intros m Hm Hle.
    pose proof (Z.div_mod m p ltac:(lia)) as Em. rewrite Hm in Em.
    assert (Hq : (sz + p - 1) / p < m / p + 1)
      by (apply (Z.mul_lt_mono_pos_l p); lia).
    nia.
Qed.

Lemma align_to_page_least_multiple_witness :
  align_to_page 4096 8224 mod 4096 = 0 /\
  8224 <= align_to_page 4096 8224 < 8224 + 4096 /\
  align_to_page 4096 8224 <= 12288.
Proof.
  destruct (align_to_page_least_multiple 4096 8224) as (H1 & H2 & H3).
  - lia.
  - lia.
  - reflexivity.
  - split; [exact H1|]. split; [exact H2|]. apply H3; [reflexivity|lia].
Defined.

(** ** The walks over the registry *)

Lemma first_fit_split m sz a l :
  chain m a l ->
  (first_fit m sz l = 0 /\ forall x, x ∈ l -> unfit m sz x) \/
  (exists l1 l2 h,
      l = l1 ++ first_fit m sz l :: l2 /\
      m !! first_fit m sz l = Some h /\
      is_free h = true /\ sz <= size h /\
      forall x, x ∈ l1 -> unfit m sz x).
Proof.
  induction 1 as [|a h l Ha L Hc IH]; simpl.
  - left. split; [reflexivity|]. intros x Hx. now apply not_elem_of_nil in Hx.
  - rewrite L. destruct (is_free h && (sz <=? size h)) eqn:Hfit.
    + apply andb_true_iff in Hfit as [Hf Hs]. apply Z.leb_le in Hs.
      right. exists [], l, h. repeat split; auto.
      intros x Hx. now apply not_elem_of_nil in Hx.
    + assert (Ua : unfit m sz a).
      { intros hx Lx. rewrite L in Lx. inversion Lx; subst hx.
        apply andb_false_iff in Hfit as [Hf|Hs]; [now left|].
        right. now apply Z.leb_gt in Hs. }
      destruct IH as [[E U]|(l1 & l2 & hf & E & Lf & Hf & Hs & U)].
      * left. split; [exact E|]. intros x Hx.
        apply elem_of_cons in Hx as [->|Hx]; auto.
      * right. exists (a :: l1), l2, hf. repeat split; auto.
        -- simpl. f_equal. exact E.
        -- intros x Hx. apply elem_of_cons in Hx as [->|Hx]; auto.
Qed.

(** X3: on a null-terminated registry [find_free_block] ends without
    touching the state and implements first fit in link order: it returns
    the null pointer when every block is in use or too small, and otherwise
    the first block that is free and large enough, every block linked
    before it being in use or too small. *)
Theorem find_free_block_is_first_fit sz st l :
  chain (mem st) (free_list st) l ->
  exists r,
    find_free_block sz st = Done (r, st) /\
    ((r = 0 /\ forall x, x ∈ l -> unfit (mem st) sz x) \/
     (exists l1 l2 h,
         l = l1 ++ r :: l2 /\ mem st !! r = Some h /\
         is_free h = true /\ sz <= size h /\
         forall x, x ∈ l1 -> unfit (mem st) sz x)).
Proof.
  intros Hc. exists (first_fit (mem st) sz l).
  split; [now apply find_free_block_chain|].
  eapply first_fit_split; eauto.
Qed.

Lemma find_free_block_is_first_fit_witness :
  exists r,
    find_free_block 128 scenario3 = Done (r, scenario3) /\
    ((r = 0 /\ forall x, x ∈ [scenario_arena + 4096; scenario_arena + 4192;
                               scenario_arena + 4352; scenario_arena] ->
                         unfit (mem scenario3) 128 x) \/
     (exists l1 l2 h,
         [scenario_arena + 4096; scenario_arena + 4192;
          scenario_arena + 4352; scenario_arena] = l1 ++ r :: l2 /\
         mem scenario3 !! r = Some h /\
         is_free h = true /\ 128 <= size h /\
         forall x, x ∈ l1 -> unfit (mem scenario3) 128 x)).
Proof.
  apply (find_free_block_is_first_fit 128 scenario3). apply scenario3_chain.
Defined.

(** X4: on a null-terminated registry [find_prev_block] returns the block
    linked right in front of the given one; for the head of the registry
    and for a block that is not linked it returns the null pointer. *)
Theorem find_prev_block_is_predecessor st l block :
  chain (mem st) (free_list st) l -> block <> 0 ->
  (forall l1 q l2, l = l1 ++ q :: block :: l2 ->
                   find_prev_block block st = Done (q, st)) /\
  (forall l2, l = block :: l2 -> find_prev_block block st = Done (0, st)) /\
  (block ∉ l -> find_prev_block block st = Done (0, st)).
Proof.
  intros Hc Hb. pose proof (chain_fuel _ _ _ Hc) as Hf.
  unfold find_prev_block, lift. split; [|split].
  - intros l1 q l2 ->. erewrite find_prev_loop_mid; eauto.
  - intros l2 ->. inversion Hc; subst.
    erewrite find_prev_loop_head; eauto.
  - intros Hn. erewrite find_prev_loop_absent; eauto.
Qed.

Lemma find_prev_block_is_predecessor_witness :
  find_prev_block (scenario_arena + 4352) scenario3 =
    Done (scenario_arena + 4192, scenario3) /\
  find_prev_block (scenario_arena + 4096) scenario3 = Done (0, scenario3) /\
  find_prev_block second_mapping scenario3 = Done (0, scenario3).
Proof.
  split; [|split].
  - destruct (find_prev_block_is_predecessor scenario3 _ (scenario_arena + 4352)
                scenario3_chain) as (H & _ & _); [discriminate|].
    apply (H [scenario_arena + 4096] (scenario_arena + 4192) [scenario_arena]).
    reflexivity.
  - destruct (find_prev_block_is_predecessor scenario3 _ (scenario_arena + 4096)
                scenario3_chain) as (_ & H & _); [discriminate|].
    eapply H. reflexivity.
  - destruct (find_prev_block_is_predecessor scenario3 _ second_mapping
                scenario3_chain) as (_ & _ & H); [discriminate|].
    apply H. vm_compute. intros Hin.
    repeat (apply elem_of_cons in Hin as [Hin|Hin]; [discriminate|]).
    now apply not_elem_of_nil in Hin.
Defined.

(** ** Linking a block at the tail of the registry *)

Lemma same_block_refl h : same_block h h.
Proof. unfold same_block. auto. Qed.

Lemma same_block_trans h1 h2 h3 :
  same_block h1 h2 -> same_block h2 h3 -> same_block h1 h3.
Proof. unfold same_block. intros (?&?&?&?) (?&?&?&?). repeat split; congruence. Qed.

Lemma same_block_next v h : same_block h (with_next v h).
Proof. unfold same_block. auto. Qed.

Lemma append_run st l block h :
  chain (mem st) (free_list st) l -> block <> 0 -> block ∉ l ->
  mem st !! block = Some h ->
  exists st',
    append_block_to_free_list block st = Done (tt, st') /\
    chain (mem st') (free_list st') (l ++ [block]) /\
    mem st' !! block = Some (with_next 0 h) /\
    (forall x, x <> block -> Some x <> last l ->
               mem st' !! x = mem st !! x) /\
    (forall x hx, last l = Some x -> mem st !! x = Some hx ->
                  mem st' !! x = Some (with_next block hx)) /\
    heap_start st' = heap_start st /\ heap_end st' = heap_end st /\
    payload st' = payload st.
Proof.
  intros Hc Hb Hn L.
  unfold append_block_to_free_list.
  rewrite (bind_update _ _ _ _ _ L).
  set (m1 := <[block := with_next 0 h]> (mem st)).
  assert (Hc1 : chain m1 (free_list st) l) by now apply chain_insert_notin.
  rewrite bind_get. state_tac.
  destruct l as [|y l' _] using rev_ind.
  - inversion Hc1 as [E|]. simpl.
    eexists. split; [reflexivity|]. state_tac. fold m1.
    split; [|split; [|split; [|split]]].
    + eapply chain_cons; [assumption|apply lookup_insert_eq|].
      simpl. constructor.
    + apply lookup_insert_eq.
    + intros x Hx _. unfold m1. now rewrite lookup_insert_ne by congruence.
    + intros x hx Hl. discriminate.
    + auto.
  - assert (Hfl : free_list st <> 0).
    { destruct l'; simpl in Hc1; inversion Hc1; assumption. }
    apply Z.eqb_neq in Hfl. rewrite Hfl.
    pose proof (chain_fuel _ _ _ Hc1) as Hf.
    pose proof (chain_NoDup _ _ _ Hc1) as Hnd.
    assert (Hy : y <> block).
    { intros ->. apply Hn, elem_of_app. right. apply list_elem_of_here. }
    destruct (chain_lookup _ _ _ y Hc) as [hy Ly].
    { apply elem_of_app. right. apply list_elem_of_here. }
    assert (Ly1 : m1 !! y = Some hy)
      by (unfold m1; now rewrite lookup_insert_ne by congruence).
    unfold lift at 1. unfold bind at 1. state_tac. fold m1.
    rewrite (last_block_chain _ _ _ _ _ Hc1 Hf).
    rewrite (update_done y (with_next block) hy) by exact Ly1.
    eexists. split; [reflexivity|]. state_tac. fold m1.
    split; [|split; [|split; [|split]]].
    + rewrite <- app_assoc. simpl.
      eapply chain_prefix_replace; [exact Hc1| |].
      * intros z Hz. apply lookup_insert_ne. intros ->.
        apply NoDup_app in Hnd as (_ & Hd & _). apply (Hd _ Hz).
        apply list_elem_of_here.
      * eapply chain_cons.
        -- eapply chain_nonzero; [exact Hc1|]. apply elem_of_app. right.
           apply list_elem_of_here.
        -- apply lookup_insert_eq.
        -- simpl. eapply chain_cons; [assumption| |].
           ++ rewrite lookup_insert_ne by congruence. apply lookup_insert_eq.
           ++ simpl. constructor.
    + rewrite lookup_insert_ne by congruence. apply lookup_insert_eq.
    + intros x Hx Hl. rewrite last_snoc in Hl.
      rewrite lookup_insert_ne by congruence.
      unfold m1. now rewrite lookup_insert_ne by congruence.
    + intros x hx Hl Lx. rewrite last_snoc in Hl. inversion Hl; subst x.
      rewrite Ly in Lx. inversion Lx; subst hx. apply lookup_insert_eq.
    + auto.
Qed.

(** X5: [append_block_to_free_list] links a block that is not yet in a
    null-terminated registry behind its last block (or makes it the head of
    an empty registry), clears the link of the block, and leaves every
    header as it was apart from the two links; no header appears or
    disappears and the arena bounds stay. *)
Theorem append_block_links_at_tail st l block h :
  chain (mem st) (free_list st) l -> block <> 0 -> block ∉ l ->
  mem st !! block = Some h ->
  exists st',
    append_block_to_free_list block st = Done (tt, st') /\
    chain (mem st') (free_list st') (l ++ [block]) /\
    (forall x hx, mem st !! x = Some hx ->
                  exists hx', mem st' !! x = Some hx' /\ same_block hx hx') /\
    dom (mem st') = dom (mem st) /\
    heap_start st' = heap_start st /\ heap_end st' = heap_end st.
Proof.
  intros Hc Hb Hn L.
  destruct (append_run st l block h Hc Hb Hn L)
    as (st' & E & Hc' & Lb & Hframe & Hlast & Hs & He & _).
  exists st'. split; [exact E|]. split; [exact Hc'|].
  split; [|split; [|auto]].
  - intros x hx Lx. destruct (decide (x = block)) as [->|Hx].
    + rewrite L in Lx. inversion Lx; subst hx.
      eexists. split; [exact Lb|apply same_block_next].
    + destruct (decide (Some x = last l)) as [El|Hl].
      * eexists. split; [eapply Hlast; eauto|apply same_block_next].
      * exists hx. split; [|apply same_block_refl].
        rewrite Hframe; auto.
  - apply append_layout in E. apply E.
Qed.

Lemma append_block_links_at_tail_witness :
  exists st',
    append_block_to_free_list second_mapping
      (with_mem (<[second_mapping := mk_header 16 true false 7 MAGIC]>
                   (mem scenario1)) scenario1) = Done (tt, st') /\
    chain (mem st') (free_list st')
      [scenario_arena + 4096; scenario_arena; second_mapping].
Proof.
  destruct (append_block_links_at_tail
              (with_mem (<[second_mapping := mk_header 16 true false 7 MAGIC]>
                           (mem scenario1)) scenario1)
              [scenario_arena + 4096; scenario_arena] second_mapping
              (mk_header 16 true false 7 MAGIC))
    as (st' & E & Hc & _).
  - repeat (eapply chain_cons;
            [vm_compute; discriminate|vm_compute; reflexivity|]).
    apply chain_nil.
  - discriminate.
  - vm_compute. intros Hin.
    repeat (apply elem_of_cons in Hin as [Hin|Hin]; [discriminate|]).
    now apply not_elem_of_nil in Hin.
  - vm_compute. reflexivity.
  - exists st'. split; [exact E|exact Hc].
Defined.

(** ** The bounds of the arena *)

Lemma carve_total_bounds p sz :
  0 < p -> (p | HEAP_EXPANSION_SIZE) -> 0 <= sz < MMAP_THRESHOLD ->
  let total := align_to_page p (wrap (sz + HEADER_SIZE)) in
  sz + HEADER_SIZE <= total <= HEAP_EXPANSION_SIZE /\
  (total = HEAP_EXPANSION_SIZE \/ p <= HEAP_EXPANSION_SIZE - total).
Proof.
  intros Hp [m Hm] Hsz total. unfold total.
  unfold HEAP_EXPANSION_SIZE, MMAP_THRESHOLD, HEADER_SIZE in *.
  assert (Hle : p <= 16384).
  { apply Z.divide_pos_le; [lia|]. exists m. exact Hm. }
  rewrite wrap_small by pow_lia.
  rewrite align_to_page_round_up by pow_lia.
  pose proof (Z.div_mod (sz + 32 + p - 1) p ltac:(lia)) as E.
  pose proof (Z.mod_pos_bound (sz + 32 + p - 1) p Hp) as B.
  set (q := (sz + 32 + p - 1) / p) in *.
  assert (Hq : q < m + 1) by (apply (Z.mul_lt_mono_pos_r p); lia).
  split; [nia|].
  destruct (Z.eq_dec q m) as [->|Hne]; [left; lia|right; nia].
Qed.

Lemma mem_only_refl st : mem_only st st.
Proof. unfold mem_only. now destruct st. Qed.

Lemma mem_only_trans st1 st2 st3 :
  mem_only st1 st2 -> mem_only st2 st3 -> mem_only st1 st3.
Proof. unfold mem_only. intros -> ->. reflexivity. Qed.

Lemma mem_only_with_mem m st : mem_only st (with_mem m st).
Proof. reflexivity. Qed.

Lemma mem_only_with_mem_r m st st' :
  mem_only st st' -> mem_only st (with_mem m st').
Proof. unfold mem_only. intros ->. reflexivity. Qed.

Lemma mem_only_fields st st' :
  mem_only st st' ->
  free_list st' = free_list st /\ heap_start st' = heap_start st /\
  heap_end st' = heap_end st /\ payload st' = payload st.
Proof. unfold mem_only. intros ->. auto. Qed.

Lemma split_block_mem_only block sz r st st' :
  split_block block sz st = Done (r, st') -> r = block /\ mem_only st st'.
Proof.
  unfold split_block. intros H. minv H. split; [reflexivity|].
  destruct (wrap _ <=? _); minv_all; [|apply mem_only_refl].
  reflexivity.
Qed.

Lemma merge_with_next_mem_only block u st st' :
  merge_with_next_block block st = Done (u, st') -> mem_only st st'.
Proof.
  unfold merge_with_next_block. intros H. minv H.
  destruct (next v =? 0); [minv E0; apply mem_only_refl|].
  minv E0. destruct (is_free v0); [|minv E1; apply mem_only_refl].
  minv E1. reflexivity.
Qed.

Lemma merge_with_prev_mem_only block r st st' :
  merge_with_prev_block block st = Done (r, st') -> mem_only st st'.
Proof.
  unfold merge_with_prev_block, find_prev_block. intros H. minv H.
  destruct (v =? 0); [minv E0; apply mem_only_refl|].
  minv E0. destruct (is_free v0); [|minv E2; apply mem_only_refl].
  minv E2. reflexivity.
Qed.

Lemma my_free_mem_only ok ptr evs st st' :
  my_free ok ptr st = Done (evs, st') -> mem_only st st'.
Proof.
  unfold my_free, merge_adjacent_free_blocks. intros H.
  destruct (ptr =? 0); [minv_all; apply mem_only_refl|]. minv_all.
  destruct (negb (magic v =? MAGIC)); [minv_all; apply mem_only_refl|].
  destruct (is_mmap v).
  - destruct ok; minv_all; [reflexivity|apply mem_only_refl].
  - minv_all.
    match goal with H : merge_with_next_block _ _ = _ |- _ =>
      apply merge_with_next_mem_only in H end.
    match goal with H : merge_with_prev_block _ _ = _ |- _ =>
      apply merge_with_prev_mem_only in H end.
    eapply mem_only_trans; [|eassumption].
    eapply mem_only_trans; [|eassumption]. reflexivity.
Qed.

Lemma request_new_heap_block_bounds p os sz r st st' :
  0 < p -> (p | HEAP_EXPANSION_SIZE) -> HEADER_SIZE < p ->
  0 <= sz < MMAP_THRESHOLD ->
  heap_start st = heap_end st ->
  request_new_heap_block p os sz st = Done (r, st') ->
  heap_start st' = heap_end st' /\ snd r = [EMmap HEAP_EXPANSION_SIZE] /\
  match os with
  | None => fst r = 0 /\ st' = st
  | Some a => fst r = a
  end.
Proof.
  intros Hp Hdiv Hhp Hsz Hinv H.
  destruct (carve_total_bounds p sz Hp Hdiv Hsz) as [Hrange Hrest].
  unfold request_new_heap_block in H.
  set (total := align_to_page p (wrap (sz + HEADER_SIZE))) in *.
  rewrite !bind_get in H. rewrite Hinv, Z.sub_diag in H.
  replace (wrap 0 <? total) with true in H
    by (symmetry; apply Z.ltb_lt; rewrite wrap_small by pow_lia; pow_lia).
  rewrite orb_true_r in H.
  destruct os as [a|]; minv_all; [|auto].
  unfold carve_block in *. minv_all. simpl in *.
  replace (a + HEAP_EXPANSION_SIZE - (a + total))
    with (HEAP_EXPANSION_SIZE - total) in * by lia.
  rewrite (wrap_small (HEAP_EXPANSION_SIZE - total)) in *
    by (unfold HEAP_EXPANSION_SIZE in *; pow_lia).
  match goal with H : append_block_to_free_list a _ = _ |- _ =>
    apply append_layout in H as (_ & Hs & He) end.
  rewrite Hs, He. split; [|auto].
  destruct (HEADER_SIZE <? HEAP_EXPANSION_SIZE - total) eqn:Hrem.
  - minv_all.
    match goal with H : append_block_to_free_list _ _ = _ |- _ =>
      apply append_layout in H as (_ & Hs1 & He1) end.
    rewrite Hs1, He1. reflexivity.
  - minv_all. simpl. apply Z.ltb_ge in Hrem. lia.
Qed.

Lemma my_malloc_bounds p os sz r st st' :
  0 < p -> (p | HEAP_EXPANSION_SIZE) -> HEADER_SIZE < p ->
  heap_start st = heap_end st ->
  my_malloc p os sz st = Done (r, st') ->
  heap_start st' = heap_end st'.
Proof.
  intros Hp Hdiv Hhp Hinv H. unfold my_malloc in H.
  destruct (sz =? 0); [minv_all; assumption|].
  pose proof (align_size_range sz) as Ha.
  destruct (MMAP_THRESHOLD <=? align_size sz) eqn:Hth.
  - unfold request_new_mmap_block in H. minv_all.
    destruct os as [a|]; minv_all; simpl in *.
    + destruct (a =? 0); minv_all; assumption.
    + minv_all. assumption.
  - apply Z.leb_gt in Hth. unfold find_free_block in H. minv_all.
    destruct (negb (v =? 0)).
    + minv_all. simpl.
      match goal with H : split_block _ _ _ = _ |- _ =>
        apply split_block_mem_only in H as [_ Hm] end.
      apply mem_only_fields in Hm as (_ & -> & -> & _). assumption.
    + minv_all.
      match goal with H : request_new_heap_block _ _ _ _ = _ |- _ =>
        apply request_new_heap_block_bounds in H as (Hb & _);
          auto; [|lia] end.
      destruct (fst _ =? 0); minv_all; assumption.
Qed.

Lemma my_calloc_bounds p os nelem sz r st st' :
  0 < p -> (p | HEAP_EXPANSION_SIZE) -> HEADER_SIZE < p ->
  heap_start st = heap_end st ->
  my_calloc p os nelem sz st = Done (r, st') ->
  heap_start st' = heap_end st'.
Proof.
  intros Hp Hdiv Hhp Hinv H. unfold my_calloc in H.
  destruct (negb (sz =? 0) && _); [minv_all; assumption|].
  minv_all.
  match goal with H : my_malloc _ _ _ _ = _ |- _ =>
    eapply my_malloc_bounds in H; eauto end.
  destruct (negb _); minv_all; assumption.
Qed.

Lemma reachable_bounds p st :
  0 < p -> (p | HEAP_EXPANSION_SIZE) -> HEADER_SIZE < p ->
  reachable p st -> heap_start st = heap_end st.
Proof.
  intros Hp Hdiv Hhp H.
  induction H as [|st os sz r st' Hr IH Hos Hm
                  |st os n sz r st' Hr IH Hos Hc
                  |st ok ptr evs st' Hr IH Hf].
  - reflexivity.
  - eapply my_malloc_bounds; eauto.
  - eapply my_calloc_bounds; eauto.
  - apply my_free_mem_only, mem_only_fields in Hf as (_ & -> & -> & _).
    assumption.
Qed.

(** X6: when the page size divides the 16 KiB expansion and exceeds the
    header, [heap_start] equals [heap_end] in every reachable state: what
    is left of an arena is handed to the registry at once and never carved
    through [heap_start].  A small request that finds no free block
    therefore always calls [mmap] for a new arena, and when that call fails
    [my_malloc] returns the null pointer and changes nothing. *)
Theorem arena_leftover_is_never_carved p st :
  (p | HEAP_EXPANSION_SIZE) -> HEADER_SIZE < p -> reachable p st ->
  heap_start st = heap_end st /\
  forall os sz ptr evs st',
    sz <> 0 -> align_size sz < MMAP_THRESHOLD ->
    find_free_block (align_size sz) st = Done (0, st) ->
    my_malloc p os sz st = Done ((ptr, evs), st') ->
    evs = [EMmap HEAP_EXPANSION_SIZE] /\
    (os = None -> ptr = 0 /\ st' = st).
Proof.
  intros Hdiv Hhp Hr.
  assert (Hp : 0 < p) by (unfold HEADER_SIZE in Hhp; lia).
  pose proof (reachable_bounds p st Hp Hdiv Hhp Hr) as Hinv.
  split; [exact Hinv|].
  intros os sz ptr evs st' Hsz Hth Hmiss H.
  pose proof (align_size_range sz) as Ha.
  unfold my_malloc in H.
  apply Z.eqb_neq in Hsz. rewrite Hsz in H.
  apply Z.leb_gt in Hth. rewrite Hth in H. apply Z.leb_gt in Hth.
  rewrite (bind_done _ _ _ _ _ Hmiss) in H. simpl negb in H. cbv iota in H.
  apply bind_inv in H as (r & st1 & H1 & H2).
  apply request_new_heap_block_bounds in H1 as (_ & Hev & Hos);
    auto; [|lia].
  destruct os as [a|].
  - split; [|discriminate].
    destruct (fst r =? 0); minv H2; exact Hev.
  - destruct Hos as [Hz ->]. rewrite Hz in H2. simpl in H2. minv H2.
    split; [exact Hev|]. auto.
Qed.

Lemma arena_leftover_is_never_carved_witness :
  heap_start scenario1 = heap_end scenario1 /\
  my_malloc scenario_page None 32 initial_state =
    Done ((0, [EMmap HEAP_EXPANSION_SIZE]), initial_state).
Proof.
  split.
  - destruct (arena_leftover_is_never_carved scenario_page scenario1)
      as [H _]; [exists 4; reflexivity|reflexivity|apply scenario1_reachable|].
    exact H.
  - reflexivity.
Defined.

(** ** Carving a block from the arena *)

Lemma chain_notin_absent m a l x : chain m a l -> m !! x = None -> x ∉ l.
Proof.
  intros Hc L Hin. destruct (chain_lookup _ _ _ _ Hc Hin) as [h Lh].
  congruence.
Qed.

Lemma carve_block_run total s0 l :
  let a := heap_start s0 in
  let rest := wrap (heap_end s0 - (a + total)) in
  let B := mk_header (wrap (total - HEADER_SIZE)) false false 0 MAGIC in
  let R := mk_header (wrap (heap_end s0 - (a + total) - HEADER_SIZE))
             true false a MAGIC in
  chain (mem s0) (free_list s0) l -> a <> 0 -> a ∉ l -> total <> 0 ->
  (HEADER_SIZE < rest -> a + total <> 0 /\ a + total ∉ l) ->
  exists s1,
    carve_block total s0 = Done (a, s1) /\
    heap_end s1 = heap_end s0 /\ payload s1 = payload s0 /\
    mem s1 !! a = Some B /\
    (HEADER_SIZE < rest ->
     heap_start s1 = heap_end s0 /\
     mem s1 !! (a + total) = Some R /\
     chain (mem s1) (free_list s1) (l ++ [a + total; a]) /\
     forall x hx, x <> a -> x <> a + total -> mem s0 !! x = Some hx ->
                  exists hx', mem s1 !! x = Some hx' /\ same_block hx hx') /\
    (rest <= HEADER_SIZE ->
     heap_start s1 = a + total /\
     chain (mem s1) (free_list s1) (l ++ [a]) /\
     forall x hx, x <> a -> mem s0 !! x = Some hx ->
                  exists hx', mem s1 !! x = Some hx' /\ same_block hx hx').
Proof.
  intros a rest B R Hc Ha Hal Ht Hrest.
  unfold carve_block. rewrite bind_get. fold a.
  rewrite bind_modify, bind_store, !bind_get. state_tac. fold rest B.
  set (s1 := with_mem (<[a := B]> (mem s0)) (with_heap_start (a + total) s0)).
  assert (Hc1 : chain (mem s1) (free_list s1) l)
    by (apply chain_insert_notin; assumption).
  assert (frame : forall (s s' : state) (b : Z) (k : list Z),
             (forall x, x <> b -> Some x <> last k -> mem s' !! x = mem s !! x) ->
             (forall x hx, last k = Some x -> mem s !! x = Some hx ->
                           mem s' !! x = Some (with_next b hx)) ->
             forall x hx, x <> b -> mem s !! x = Some hx ->
                          exists hx', mem s' !! x = Some hx' /\ same_block hx hx').
  { intros s s' b k F1 F2 x hx Hx Lx.
    destruct (decide (Some x = last k)) as [El|Hl].
    - eexists. split; [eapply F2; eauto|apply same_block_next].
    - exists hx. split; [rewrite F1; auto|apply same_block_refl]. }
  destruct (HEADER_SIZE <? rest) eqn:Hcmp.
  - apply Z.ltb_lt in Hcmp. destruct (Hrest Hcmp) as [Hn0 Hnl].
    assert (Hne : a + total <> a) by lia.
    set (R0 := mk_header (wrap (heap_end s0 - (a + total) - HEADER_SIZE))
                 true false 0 MAGIC).
    set (s2 := with_heap_start (heap_end s0)
                 (with_mem (<[a + total := R0]> (mem s1)) s1)).
    assert (Hc2 : chain (mem s2) (free_list s2) l)
      by (apply chain_insert_notin; assumption).
    destruct (append_run s2 l (a + total) R0 Hc2 Hn0 Hnl)
      as (s3 & E3 & Hc3 & L3 & F3 & G3 & Hs3 & He3 & Hp3);
      [apply lookup_insert_eq|].
    assert (La3 : mem s3 !! a = Some B).
    { rewrite F3; [|congruence|].
      - unfold s2, s1. state_tac.
        rewrite lookup_insert_ne by congruence. apply lookup_insert_eq.
      - intros El. apply Hal. symmetry in El. apply last_Some in El as [k ->].
        apply elem_of_app. right. apply list_elem_of_here. }
    destruct (append_run s3 (l ++ [a + total]) a B Hc3 Ha)
      as (s4 & E4 & Hc4 & L4 & F4 & G4 & Hs4 & He4 & Hp4);
      [|exact La3|].
    { intros Hin. apply elem_of_app in Hin as [Hin|Hin]; [auto|].
      apply list_elem_of_singleton in Hin. congruence. }
    exists s4. split.
    { rewrite bind_assoc, bind_store, bind_assoc, bind_modify.
      fold R0. change (with_heap_start (heap_end s0) _) with s2.
      rewrite (bind_done _ _ _ _ _ E3), (bind_done _ _ _ _ _ E4).
      reflexivity. }
    split; [rewrite He4, He3; reflexivity|].
    split; [rewrite Hp4, Hp3; reflexivity|].
    split; [exact L4|]. split; [|intros Hle; lia].
    intros _. split; [rewrite Hs4, Hs3; reflexivity|].
    split; [apply (G4 _ _ (last_snoc _ _) L3)|].
    split; [rewrite <- app_assoc in Hc4; exact Hc4|].
    intros x hx Hxa Hxr Lx.
    assert (L2 : mem s2 !! x = Some hx).
    { unfold s2, s1. state_tac. now rewrite !lookup_insert_ne by congruence. }
    destruct (frame s2 s3 _ _ F3 G3 x hx Hxr L2) as (h3 & Lx3 & S3).
    destruct (frame s3 s4 _ _ F4 G4 x h3 Hxa Lx3) as (h4 & Lx4 & S4).
    exists h4. split; [exact Lx4|]. eapply same_block_trans; eauto.
  - apply Z.ltb_ge in Hcmp.
    destruct (append_run s1 l a B Hc1 Ha Hal)
      as (s4 & E4 & Hc4 & L4 & F4 & G4 & Hs4 & He4 & Hp4);
      [apply lookup_insert_eq|].
    exists s4. split.
    { rewrite bind_ret_l, (bind_done _ _ _ _ _ E4). reflexivity. }
    split; [exact He4|]. split; [exact Hp4|].
    split; [exact L4|]. split; [intros Hlt; lia|].
    intros _. split; [exact Hs4|]. split; [exact Hc4|].
    intros x hx Hxa Lx.
    apply (frame s1 s4 _ _ F4 G4 x hx Hxa).
    unfold s1. state_tac. now rewrite lookup_insert_ne by congruence.
Qed.

Lemma my_malloc_miss p a sz st s1 :
  sz <> 0 -> align_size sz < MMAP_THRESHOLD ->
  find_free_block (align_size sz) st = Done (0, st) ->
  heap_start st = heap_end st ->
  let total := align_to_page p (wrap (align_size sz + HEADER_SIZE)) in
  0 < total -> a <> 0 ->
  carve_block total
    (with_heap_end (a + HEAP_EXPANSION_SIZE) (with_heap_start a st)) =
    Done (a, s1) ->
  my_malloc p (Some a) sz st =
    Done ((a + HEADER_SIZE, [EMmap HEAP_EXPANSION_SIZE]), s1).
Proof.
  intros Hsz Hth Hmiss Hinv total Ht Ha E.
  unfold my_malloc.
  apply Z.eqb_neq in Hsz. rewrite Hsz.
  apply Z.leb_gt in Hth. rewrite Hth.
  rewrite (bind_done _ _ _ _ _ Hmiss), Z.eqb_refl. cbn [negb].
  unfold request_new_heap_block. cbv zeta. fold total.
  rewrite bind_assoc, bind_get, bind_assoc, bind_get.
  rewrite Hinv, Z.sub_diag, (wrap_small 0) by pow_lia.
  apply Z.ltb_lt in Ht. rewrite Ht, orb_true_r.
  rewrite bind_assoc, bind_modify, bind_assoc, bind_modify, bind_assoc.
  rewrite (bind_done _ _ _ _ _ E), bind_ret_l. cbn [fst snd].
  apply Z.eqb_neq in Ha. rewrite Ha. reflexivity.
Qed.

(** X7: a request of 1 to 8176 bytes that finds no free block, served by
    a fresh arena at [a]: the carved block sits at the arena base, is in
    use, tagged and at least as large as the request; it ends where the
    remainder block starts, and the remainder, a free block, ends where
    the arena ends, so the two tile the 16 KiB mapping (the block alone
    when it fills the arena).  Both are linked at the tail of the registry,
    the remainder first, and the other headers keep everything but their
    link. *)
Theorem miss_carves_block_and_remainder p st l a sz :
  (p | HEAP_EXPANSION_SIZE) -> HEADER_SIZE < p ->
  0 < sz <= MMAP_THRESHOLD - ALIGNMENT ->
  chain (mem st) (free_list st) l ->
  heap_start st = heap_end st ->
  find_free_block (align_size sz) st = Done (0, st) ->
  0 < a ->
  (forall x, a <= x < a + HEAP_EXPANSION_SIZE -> mem st !! x = None) ->
  let total := align_to_page p (wrap (align_size sz + HEADER_SIZE)) in
  exists st' hb,
    my_malloc p (Some a) sz st =
      Done ((a + HEADER_SIZE, [EMmap HEAP_EXPANSION_SIZE]), st') /\
    heap_start st' = a + HEAP_EXPANSION_SIZE /\
    heap_end st' = a + HEAP_EXPANSION_SIZE /\
    mem st' !! a = Some hb /\
    is_free hb = false /\ is_mmap hb = false /\ magic hb = MAGIC /\
    sz <= size hb /\ a + HEADER_SIZE + size hb = a + total /\
    total <= HEAP_EXPANSION_SIZE /\
    (total = HEAP_EXPANSION_SIZE ->
     chain (mem st') (free_list st') (l ++ [a])) /\
    (total < HEAP_EXPANSION_SIZE ->
     chain (mem st') (free_list st') (l ++ [a + total; a]) /\
     exists hr,
       mem st' !! (a + total) = Some hr /\
       is_free hr = true /\ is_mmap hr = false /\ magic hr = MAGIC /\
       a + total + HEADER_SIZE + size hr = a + HEAP_EXPANSION_SIZE) /\
    (forall x hx, mem st !! x = Some hx ->
                  exists hx', mem st' !! x = Some hx' /\ same_block hx hx').
Proof.
  intros Hdiv Hhp Hsz Hc Hinv Hmiss Ha Hfresh total.
  assert (Hp : 0 < p) by (unfold HEADER_SIZE in Hhp; lia).
  assert (Hge : sz <= align_size sz)
    by (apply align_size_ge; unfold MMAP_THRESHOLD, ALIGNMENT in *; pow_lia).
  assert (Hth : align_size sz < MMAP_THRESHOLD).
  { unfold MMAP_THRESHOLD, ALIGNMENT in *.
    rewrite align_size_round_up by pow_lia.
    pose proof (Z.div_mod (sz + 15) 16 ltac:(lia)) as Em.
    pose proof (Z.mod_pos_bound (sz + 15) 16 ltac:(lia)) as Bm. lia. }
  destruct (carve_total_bounds p (align_size sz) Hp Hdiv) as [Hrange Hrest];
    [lia|]. fold total in Hrange, Hrest.
  set (s0 := with_heap_end (a + HEAP_EXPANSION_SIZE) (with_heap_start a st)).
  assert (Hd : heap_end s0 - (heap_start s0 + total) =
               HEAP_EXPANSION_SIZE - total) by (simpl; lia).
  assert (Hw : wrap (HEAP_EXPANSION_SIZE - total) = HEAP_EXPANSION_SIZE - total)
    by (apply wrap_small; unfold HEAP_EXPANSION_SIZE in *; pow_lia).
  assert (Hal : a ∉ l).
  { eapply chain_notin_absent; [exact Hc|]. apply Hfresh.
    unfold HEAP_EXPANSION_SIZE. lia. }
  destruct (carve_block_run total s0 l)
    as (s1 & E & He & _ & Lb & Hbig & Hsmall).
  - exact Hc.
  - unfold s0. state_tac. lia.
  - exact Hal.
  - pow_lia.
  - rewrite Hd, Hw. intros Hlt. unfold s0. state_tac. split; [pow_lia|].
    eapply chain_notin_absent; [exact Hc|]. apply Hfresh. pow_lia.
  - rewrite Hd, Hw in Hbig, Hsmall. unfold s0 in Hbig, Hsmall, He, Lb.
    cbn [heap_start heap_end with_heap_end with_heap_start] in *.
    exists s1, (mk_header (wrap (total - HEADER_SIZE)) false false 0 MAGIC).
    assert (Hws : wrap (total - HEADER_SIZE) = total - HEADER_SIZE)
      by (apply wrap_small; unfold HEAP_EXPANSION_SIZE, HEADER_SIZE in *;
          pow_lia).
    split.
    { apply my_malloc_miss; auto; try lia.
      - fold total. unfold HEADER_SIZE in *. lia. }
    cbn [size is_free is_mmap magic]. rewrite Hws.
    assert (Hcases : HEADER_SIZE < HEAP_EXPANSION_SIZE - total \/
                     total = HEAP_EXPANSION_SIZE) by lia.
    split.
    { destruct Hcases as [Hlt| ->]; [apply Hbig in Hlt as [-> _]; reflexivity|].
      destruct Hsmall as [-> _]; [unfold HEADER_SIZE; lia|reflexivity]. }
    split; [exact He|]. split; [rewrite <- Hws; exact Lb|].
    repeat (split; [reflexivity || lia|]).
    split; [|split].
    + intros Ht. destruct Hsmall as (_ & Hc' & _);
        [unfold HEADER_SIZE; lia|exact Hc'].
    + intros Ht. destruct Hbig as (_ & Lr & Hc' & _); [lia|].
      split; [exact Hc'|]. eexists. split; [exact Lr|].
      cbn [size is_free is_mmap magic]. repeat split.
      rewrite wrap_small
        by (unfold HEAP_EXPANSION_SIZE, HEADER_SIZE in *; pow_lia).
      lia.
    + intros x hx Lx.
      assert (Hxa : x <> a).
      { intros ->. rewrite Hfresh in Lx; [discriminate|].
        unfold HEAP_EXPANSION_SIZE. lia. }
      destruct Hcases as [Hlt|Heq].
      * destruct (Hbig Hlt) as (_ & _ & _ & F). apply F; auto.
        intros ->. rewrite Hfresh in Lx; [discriminate|].
        unfold HEADER_SIZE in *. lia.
      * destruct Hsmall as (_ & _ & F); [unfold HEADER_SIZE; lia|].
        apply F; auto.
Qed.

Lemma miss_carves_block_and_remainder_witness :
  exists st',
    my_malloc scenario_page (Some scenario_arena) 32 initial_state =
      Done ((scenario_arena + HEADER_SIZE, [EMmap HEAP_EXPANSION_SIZE]), st') /\
    chain (mem st') (free_list st') [scenario_arena + 4096; scenario_arena].
Proof.
  destruct (miss_carves_block_and_remainder scenario_page initial_state []
              scenario_arena 32)
    as (st' & hb & E & _ & _ & _ & _ & _ & _ & _ & _ & _ & _ & Hrem & _).
  - exists 4. reflexivity.
  - reflexivity.
  - unfold MMAP_THRESHOLD, ALIGNMENT. lia.
  - apply chain_nil.
  - reflexivity.
  - reflexivity.
  - reflexivity.
  - intros x _. apply lookup_empty.
  - exists st'. split; [exact E|]. apply Hrem. reflexivity.
Defined.



(** ** What a successful allocation returns *)

Lemma same_blocks_refl m : same_blocks m m.
Proof. intros x hx L. exists hx. split; [exact L|apply same_block_refl]. Qed.

Lemma same_blocks_trans m1 m2 m3 :
  same_blocks m1 m2 -> same_blocks m2 m3 -> same_blocks m1 m3.
Proof.
  intros H1 H2 x hx L. destruct (H1 x hx L) as (h2 & L2 & S2).
  destruct (H2 x h2 L2) as (h3 & L3 & S3).
  exists h3. split; [exact L3|]. eapply same_block_trans; eauto.
Qed.

Lemma same_blocks_insert m a h h' :
  m !! a = Some h -> same_block h h' -> same_blocks m (<[a := h']> m).
Proof.
  intros L S x hx Lx. destruct (decide (x = a)) as [->|Hne].
  - rewrite L in Lx. inversion Lx; subst hx.
    exists h'. split; [apply lookup_insert_eq|exact S].
  - exists hx. split; [|apply same_block_refl].
    now rewrite lookup_insert_ne by congruence.
Qed.

Lemma same_blocks_insert_fresh m a h' :
  m !! a = None -> same_blocks m (<[a := h']> m).
Proof.
  intros L x hx Lx. exists hx. split; [|apply same_block_refl].
  rewrite lookup_insert_ne; [exact Lx|]. intros ->. congruence.
Qed.

Lemma append_same_blocks block u st st' :
  append_block_to_free_list block st = Done (u, st') ->
  same_blocks (mem st) (mem st').
Proof.
  unfold append_block_to_free_list. intros H. minv_all. simpl in *.
  assert (H1 : same_blocks (mem st) (<[block := with_next 0 h]> (mem st)))
    by (eapply same_blocks_insert; [eassumption|apply same_block_next]).
  destruct (free_list st =? 0); minv_all; simpl in *; [assumption|].
  eapply same_blocks_trans; [exact H1|].
  eapply same_blocks_insert; [eassumption|apply same_block_next].
Qed.

Lemma carve_block_header total r st st' :
  total <> 0 -> carve_block total st = Done (r, st') ->
  r = heap_start st /\
  exists hb, mem st' !! r = Some hb /\
             same_block
               (mk_header (wrap (total - HEADER_SIZE)) false false 0 MAGIC) hb.
Proof.
  unfold carve_block. intros Ht H. minv_all. simpl in *.
  split; [reflexivity|].
  set (B := mk_header (wrap (total - HEADER_SIZE)) false false 0 MAGIC) in *.
  match goal with H : append_block_to_free_list (heap_start st) ?s = _ |- _ =>
    apply append_same_blocks in H; rename H into Hlast;
    assert (Hmid : exists hm, mem s !! heap_start st = Some hm /\
                              same_block B hm)
  end.
  { destruct (HEADER_SIZE <? _); minv_all; simpl in *.
    - match goal with H : append_block_to_free_list _ ?s = _ |- _ =>
        apply append_same_blocks in H; apply H end.
      simpl. rewrite lookup_insert_ne by lia. apply lookup_insert_eq.
    - exists B. split; [apply lookup_insert_eq|apply same_block_refl]. }
  destruct Hmid as (hm & Lm & Sm).
  destruct (Hlast _ _ Lm) as (hb & Lb & Sb).
  exists hb. split; [exact Lb|]. eapply same_block_trans; eauto.
Qed.

Lemma find_free_loop_fit fuel m sz current r :
  find_free_loop fuel m sz current = Done r -> r <> 0 ->
  exists h, m !! r = Some h /\ is_free h = true /\ sz <= size h.
Proof.
  revert current. induction fuel as [|n IH]; simpl; intros c H Hr;
    [discriminate|].
  destruct (c =? 0); [inversion H; congruence|].
  destruct (m !! c) as [h|] eqn:L; [|discriminate].
  destruct (is_free h && (sz <=? size h)) eqn:Hfit.
  - inversion H; subst. apply andb_true_iff in Hfit as [Hf Hs].
    apply Z.leb_le in Hs. eauto.
  - eauto.
Qed.

Lemma page_round_fits p n :
  0 < p -> 0 <= n -> n + HEADER_SIZE + p <= 2 ^ 64 ->
  let total := align_to_page p (wrap (n + HEADER_SIZE)) in
  total <> 0 /\ wrap (total - HEADER_SIZE) = total - HEADER_SIZE /\
  n <= total - HEADER_SIZE.
Proof.
  intros Hp Hn Hb total. unfold total.
  rewrite wrap_small by pow_lia.
  rewrite align_to_page_round_up by pow_lia.
  pose proof (Z.div_mod (n + HEADER_SIZE + p - 1) p ltac:(lia)) as E.
  pose proof (Z.mod_pos_bound (n + HEADER_SIZE + p - 1) p Hp) as B.
  set (q := (n + HEADER_SIZE + p - 1) / p) in *.
  assert (Hq : n + HEADER_SIZE <= q * p) by nia.
  split; [pow_lia|]. split; [|lia].
  apply wrap_small. split; [pow_lia|]. pow_lia.
Qed.

(** X9: when no size computation wraps, a non-null pointer returned by
    [my_malloc] has a header right in front of it that is marked in use,
    carries the valid tag and has room for the bytes asked for; the header
    says [is_mmap] when the normalized size reaches the threshold, and in a
    reachable state it does not say so below the threshold. *)
Theorem my_malloc_block_fits p os sz st ptr evs st' :
  0 < p -> 0 < sz -> sz + ALIGNMENT + HEADER_SIZE + p <= 2 ^ 64 ->
  my_malloc p os sz st = Done ((ptr, evs), st') -> ptr <> 0 ->
  exists h,
    mem st' !! (ptr - HEADER_SIZE) = Some h /\
    is_free h = false /\ magic h = MAGIC /\ sz <= size h /\
    (MMAP_THRESHOLD <= align_size sz -> is_mmap h = true) /\
    (align_size sz < MMAP_THRESHOLD -> reachable p st -> is_mmap h = false).
Proof.
  intros Hp Hsz Hb H Hptr.
  assert (Hsz0 : sz <> 0) by lia.
  assert (Hge : sz <= align_size sz)
    by (apply align_size_ge; unfold ALIGNMENT, HEADER_SIZE in *; pow_lia).
  assert (Hup : align_size sz < sz + ALIGNMENT).
  { unfold ALIGNMENT, HEADER_SIZE in *.
    rewrite align_size_round_up by pow_lia.
    pose proof (Z.div_mod (sz + 15) 16 ltac:(lia)) as Em.
    pose proof (Z.mod_pos_bound (sz + 15) 16 ltac:(lia)) as Bm. lia. }
  destruct (page_round_fits p (align_size sz))
    as (Ht0 & Hw & Hfit); [lia|lia|lia|].
  set (total := align_to_page p (wrap (align_size sz + HEADER_SIZE))) in *.
  destruct (Z.le_gt_cases MMAP_THRESHOLD (align_size sz)) as [Hth|Hth].
  - (* a mapping of its own *)
    rewrite (my_malloc_large p st os sz Hsz0 Hth) in H. fold total in H.
    destruct os as [a|]; inversion H; subst; [|congruence].
    destruct (a =? 0); [congruence|].
    replace (a + HEADER_SIZE - HEADER_SIZE) with a by lia.
    eexists. split; [apply lookup_insert_eq|]. cbn [size is_free magic is_mmap].
    rewrite Hw. repeat split; auto; lia.
  - pose proof H as H0. unfold my_malloc in H.
    pose proof Hsz0 as Hsz1. apply Z.eqb_neq in Hsz1. rewrite Hsz1 in H.
    pose proof Hth as Hth'. apply Z.leb_gt in Hth'. rewrite Hth' in H.
    apply bind_inv in H as (b & s1 & Hfind & H).
    pose proof Hfind as Hfind'.
    unfold find_free_block in Hfind. minv Hfind.
    destruct (negb (b =? 0)) eqn:Hbz.
    + (* a block of the registry is used again *)
      apply negb_true_iff, Z.eqb_neq in Hbz.
      destruct (find_free_loop_fit _ _ _ _ _ E Hbz) as (h & L & Hf & Hs).
      rewrite (my_malloc_reuse p os sz st b h Hsz0 Hth Hfind' Hbz L) in H0.
      inversion H0; subst.
      replace (b + HEADER_SIZE - HEADER_SIZE) with b by lia.
      cbn [mem with_mem].
      assert (Hk : reachable p st -> is_mmap h = false).
      { intros Hr. apply find_free_loop_reach in E; [|exact Hbz].
        destruct (reachable_no_mapped p st Hr b Hbz E) as (h' & L' & Hk).
        congruence. }
      destruct (wrap _ <=? size h).
      * eexists. split; [apply lookup_insert_eq|].
        cbn [size is_free magic is_mmap]. repeat split; auto; lia.
      * eexists. split; [apply lookup_insert_eq|].
        cbn [size is_free magic is_mmap]. repeat split; auto; lia.
    + (* a block is carved *)
      apply bind_inv in H as ([r e] & s2 & Hreq & H).
      cbn [fst snd] in H.
      destruct (r =? 0) eqn:Hr0; minv H; try congruence.
      replace (r + HEADER_SIZE - HEADER_SIZE) with r by lia.
      assert (Hcarve : exists s, carve_block total s = Done (r, s2)).
      { unfold request_new_heap_block in Hreq. fold total in Hreq.
        rewrite !bind_get in Hreq.
        destruct (_ || _).
        - destruct os as [a|]; minv_all; eauto.
        - minv_all. eauto. }
      destruct Hcarve as (s & Hcarve).
      apply carve_block_header in Hcarve as (_ & hb & Lb & Sb & Sf & Sm & Sg);
        [|exact Ht0].
      cbn [size is_free magic is_mmap] in *.
      exists hb. split; [exact Lb|]. rewrite Sb, Hw.
      repeat split; auto; lia.
Qed.

Lemma my_malloc_block_fits_witness :
  exists h,
    mem scenario2 !! (scenario_arena + 4096) = Some h /\
    is_free h = false /\ magic h = MAGIC /\ 64 <= size h.
Proof.
  destruct (my_malloc_block_fits scenario_page None 64 scenario1
              (scenario_arena + 4096 + HEADER_SIZE) [] scenario2)
    as (h & L & F & G & S & _).
  - reflexivity.
  - reflexivity.
  - vm_compute. discriminate.
  - vm_compute. reflexivity.
  - discriminate.
  - exists h. auto.
Defined.

Lemma carve_block_result total r st st' :
  carve_block total st = Done (r, st') -> r = heap_start st.
Proof. unfold carve_block. intros H. minv_all. reflexivity. Qed.

Lemma request_new_heap_block_result p os sz r evs st st' :
  request_new_heap_block p os sz st = Done ((r, evs), st') ->
  (r = 0 /\ os = None /\ st' = st) \/
  (r = heap_start st /\ heap_start st <> 0) \/
  os = Some r.
Proof.
  unfold request_new_heap_block. intros H. rewrite !bind_get in H.
  destruct (heap_start st =? 0) eqn:Hs; cbn [orb] in H.
  - destruct os as [a|]; minv_all; [|auto].
    match goal with H : carve_block _ _ = _ |- _ =>
      apply carve_block_result in H end.
    simpl in *. subst. auto.
  - apply Z.eqb_neq in Hs. destruct (_ <? _).
    + destruct os as [a|]; minv_all; [|auto].
      match goal with H : carve_block _ _ = _ |- _ =>
        apply carve_block_result in H end.
      simpl in *. subst. auto.
    + minv_all.
      match goal with H : carve_block _ _ = _ |- _ =>
        apply carve_block_result in H end.
      subst. auto.
Qed.

(** X10: in a reachable state, a call of [my_malloc] or [my_calloc] that
    returns the null pointer leaves the whole allocator state as it was. *)
Theorem failed_allocation_changes_nothing p st os nelem sz :
  reachable p st -> os_ok p st os ->
  (forall evs st', my_malloc p os sz st = Done ((0, evs), st') -> st' = st) /\
  (forall evs st',
      my_calloc p os nelem sz st = Done ((0, evs), st') -> st' = st).
Proof.
  intros Hr Hos.
  pose proof (reachable_positive p st Hr) as Hok.
  assert (Hm : forall n evs st',
             my_malloc p os n st = Done ((0, evs), st') -> st' = st).
  { intros n evs st' H.
    destruct (Z.eq_dec n 0) as [->|Hn]; [inversion H; reflexivity|].
    destruct (Z.le_gt_cases MMAP_THRESHOLD (align_size n)) as [Hth|Hth].
    - rewrite (my_malloc_large p st os n Hn Hth) in H.
      destruct os as [a|]; [|inversion H; reflexivity].
      destruct Hos as (Ha & _).
      destruct (a =? 0) eqn:Ha0; [apply Z.eqb_eq in Ha0; lia|].
      inversion H. unfold HEADER_SIZE in *. lia.
    - unfold my_malloc in H.
      apply Z.eqb_neq in Hn. rewrite Hn in H.
      apply Z.leb_gt in Hth. rewrite Hth in H.
      apply bind_inv in H as (b & s1 & Hfind & H).
      unfold find_free_block in Hfind. minv Hfind.
      destruct (negb (b =? 0)) eqn:Hbz.
      + apply negb_true_iff, Z.eqb_neq in Hbz.
        apply find_free_loop_found in E as [?|[h L]]; [contradiction|].
        destruct (addresses_ok_lookup 1 _ _ _ Hok L) as [Hb _].
        apply bind_inv in H as (b' & s2 & Hsplit & H).
        apply split_block_mem_only in Hsplit as [-> _].
        minv_all. unfold HEADER_SIZE in *. lia.
      + apply bind_inv in H as ([r e] & s2 & Hreq & H).
        cbn [fst snd] in H.
        apply request_new_heap_block_result in Hreq
          as [(-> & _ & ->)|[[-> Hs]| ->]].
        * simpl in H. minv H. reflexivity.
        * destruct Hok as (_ & Hs0 & _).
          destruct (heap_start st =? 0) eqn:Hz;
            [apply Z.eqb_eq in Hz; contradiction|].
          minv H. unfold HEADER_SIZE in *. lia.
        * destruct Hos as (Ha & _).
          destruct (r =? 0) eqn:Hz; [apply Z.eqb_eq in Hz; lia|].
          minv H. unfold HEADER_SIZE in *. lia. }
  split; [apply Hm|].
  intros evs st' H. unfold my_calloc in H.
  destruct (negb (sz =? 0) && _); [minv H; reflexivity|].
  apply bind_inv in H as ([r e] & s1 & Hmal & H). cbn [fst snd] in H.
  destruct (r =? 0) eqn:Hz; cbn [negb] in H.
  - apply Z.eqb_eq in Hz. subst r. minv_all. eapply Hm; eauto.
  - apply Z.eqb_neq in Hz. minv_all; congruence.
Qed.

Lemma failed_allocation_changes_nothing_witness :
  exists st',
    my_malloc scenario_page None 9000 scenario1 =
      Done ((0, [EMmap 12288]), st') /\
    st' = scenario1.
Proof.
  destruct (failed_allocation_changes_nothing scenario_page scenario1 None
              1 9000) as [H _]; [apply scenario1_reachable|exact I|].
  eexists. split; [vm_compute; reflexivity|].
  eapply H. vm_compute. reflexivity.
Defined.



(** ** The tags of the headers *)
















(** ** Round trips *)

(** X13: a large request served by a mapping at a fresh address, followed
    by the release of the returned pointer with a successful [munmap],
    unmaps exactly the length that was mapped and brings the allocator back
    to the very state it had before the request. *)
Theorem large_block_round_trip p st a sz :
  sz <> 0 -> MMAP_THRESHOLD <= align_size sz ->
  0 < a -> mem st !! a = None ->
  let len := align_to_page p (wrap (align_size sz + HEADER_SIZE)) in
  exists st1,
    my_malloc p (Some a) sz st = Done ((a + HEADER_SIZE, [EMmap len]), st1) /\
    my_free true (a + HEADER_SIZE) st1 = Done ([EMunmap a len], st).
Proof.
  intros Hsz Hth Ha Hfresh len.
  pose proof (my_malloc_large p st (Some a) sz Hsz Hth) as E.
  cbv beta iota zeta in E. fold len in E.
  assert (Ha0 : (a =? 0) = false) by (apply Z.eqb_neq; lia).
  rewrite Ha0 in E.
  eexists. split; [exact E|].
  rewrite (my_free_mapped true (a + HEADER_SIZE)
             (mk_header (wrap (len - HEADER_SIZE)) false true 0 MAGIC)).
  - replace (a + HEADER_SIZE - HEADER_SIZE) with a by lia.
    cbn [size mem with_mem].
    rewrite wrap_sub_add by apply align_to_page_range.
    rewrite delete_insert_id by exact Hfresh.
    rewrite with_mem_twice, with_mem_id. reflexivity.
  - unfold HEADER_SIZE. lia.
  - replace (a + HEADER_SIZE - HEADER_SIZE) with a by lia.
    apply lookup_insert_eq.
  - reflexivity.
  - reflexivity.
Qed.

Lemma large_block_round_trip_witness :
  exists st1,
    my_malloc scenario_page (Some large_mapping) 8192 scenario1 =
      Done ((large_mapping + HEADER_SIZE, [EMmap 12288]), st1) /\
    my_free true (large_mapping + HEADER_SIZE) st1 =
      Done ([EMunmap large_mapping 12288], scenario1).
Proof.
  apply (large_block_round_trip scenario_page scenario1 large_mapping 8192).
  - discriminate.
  - vm_compute. discriminate.
  - reflexivity.
  - vm_compute. reflexivity.
Defined.

(** ** Requests close to the largest [size_t] *)

Lemma align_size_wraps sz :
  2 ^ 64 - ALIGNMENT < sz < 2 ^ 64 -> align_size sz = 0.
Proof.
  intros H. rewrite align_size_eq. unfold wrap, ALIGNMENT in *.
  assert (E : (sz + 15) mod 2 ^ 64 = sz + 15 - 2 ^ 64).
  { symmetry. apply Z.mod_unique_pos with (q := 1); pow_lia. }
  rewrite E. rewrite Z.div_small by pow_lia. reflexivity.
Qed.

(** X14: a request of more than 2^64 - 16 bytes is normalized to size 0 by
    the wrap-around of [align_size]; when the registry holds a free block,
    [my_malloc] then returns a non-null pointer to a block of the registry
    whose size is below the size asked for, without calling [mmap]. *)
Theorem request_near_size_max_gets_a_small_block p os sz st l c hc :
  2 ^ 64 - ALIGNMENT < sz < 2 ^ 64 ->
  chain (mem st) (free_list st) l ->
  c ∈ l -> mem st !! c = Some hc -> is_free hc = true -> 0 <= size hc ->
  align_size sz = 0 /\
  exists b st' h',
    my_malloc p os sz st = Done ((b + HEADER_SIZE, []), st') /\
    b ∈ l /\ mem st' !! b = Some h' /\ is_free h' = false /\
    size h' < sz.
Proof.
  intros Hsz Hc Hin Lc Hf Hs.
  pose proof (align_size_wraps sz Hsz) as Ha. split; [exact Ha|].
  destruct (first_fit_found _ 0 _ _ _ _ Hc Hin Lc Hf Hs)
    as (hf & Hbin & Lb & Hff & Hfs).
  set (b := first_fit (mem st) 0 l) in *.
  pose proof (find_free_block_chain 0 st l Hc) as Hfind. fold b in Hfind.
  assert (Hb : b <> 0) by (eapply chain_nonzero; eauto).
  assert (Hsz0 : sz <> 0) by (unfold ALIGNMENT in *; pow_lia).
  pose proof (my_malloc_reuse p os sz st b hf Hsz0) as E.
  rewrite Ha in E. specialize (E ltac:(unfold MMAP_THRESHOLD; lia) Hfind Hb Lb).
  cbv zeta in E.
  destruct (wrap (0 + (HEADER_SIZE + ALIGNMENT)) <=? size hf) eqn:Hroom.
  - eexists b, _, _. split; [exact E|]. split; [exact Hbin|].
    cbn [mem with_mem]. split; [apply lookup_insert_eq|].
    cbn [size is_free]. split; [reflexivity|].
    unfold ALIGNMENT in *. pow_lia.
  - eexists b, _, _. split; [exact E|]. split; [exact Hbin|].
    cbn [mem with_mem]. split; [apply lookup_insert_eq|].
    cbn [size is_free]. split; [reflexivity|].
    apply Z.leb_gt in Hroom.
    rewrite wrap_small in Hroom by (unfold HEADER_SIZE, ALIGNMENT; pow_lia).
    unfold HEADER_SIZE, ALIGNMENT in *. pow_lia.
Qed.

Lemma request_near_size_max_gets_a_small_block_witness :
  exists b st' h',
    my_malloc scenario_page None (2 ^ 64 - 1) scenario1 =
      Done ((b + HEADER_SIZE, []), st') /\
    mem st' !! b = Some h' /\ size h' < 2 ^ 64 - 1.
Proof.
  destruct (request_near_size_max_gets_a_small_block scenario_page None
              (2 ^ 64 - 1) scenario1
              [scenario_arena + 4096; scenario_arena] (scenario_arena + 4096)
              (mk_header 12256 true false scenario_arena MAGIC))
    as (_ & b & st' & h' & E & _ & L & _ & Hs).
  - unfold ALIGNMENT. split; reflexivity.
  - apply scenario1_chain.
  - apply list_elem_of_here.
  - vm_compute. reflexivity.
  - reflexivity.
  - simpl. lia.
  - exists b, st', h'. auto.
Defined.

(** ** The head of the registry *)






(** ** The bytes the registry accounts for *)










